(** * Classical Max-Cut benchmark engine (QUBO track)

    A shallow embedding of the exact Max-Cut solver, the trial harness and
    the statistical report of [corrected_classical_optimization.py], as the
    repository documents them (the code fragments, console transcripts and
    CSV rows quoted in [qubo_track/docs/verification] and in the track's
    README), followed by the properties of the engine.

    Python values are modelled as follows: integers as [Z], tuples and
    lists as [list], exceptions as a class name with a message, a call
    that may raise as a sum [exn + A], floating-point statistics as exact
    rationals [Q] tagged with the IEEE special values. *)

From Stdlib Require Import ZArith QArith Qabs List String Ascii Bool Arith Lia.
From Stdlib Require Import DecimalString.
Import ListNotations.

Open Scope string_scope.
Open Scope Z_scope.

(* ================================================================== *)
(** * Python basics *)

(** A raised exception: its class and its message. *)
Record exn : Type := mk_exn { exc_class : string; exc_msg : string }.

(** A computation that returns or raises. *)
Definition result (A : Type) : Type := (exn + A)%type.

Definition ret {A : Type} (a : A) : result A := inr a.
Definition raise {A : Type} (e : exn) : result A := inl e.

Definition bind {A B : Type} (m : result A) (k : A -> result B) : result B :=
  match m with
  | inl e => inl e
  | inr a => k a
  end.

Notation "x <- m ;; k" := (bind m (fun x => k))
  (at level 61, m at next level, right associativity).

Definition IndexError : exn :=
  mk_exn "IndexError" "tuple index out of range".
Definition TypeError : exn :=
  mk_exn "TypeError" "tuple indices must be integers or slices, not str".
Definition ZeroDivisionError : exn :=
  mk_exn "ZeroDivisionError" "division by zero".

(** [str(n)] for a non-negative integer. *)
Definition str_of_nat (n : nat) : string :=
  NilEmpty.string_of_uint (Nat.to_uint n).

(** [sub in s] on strings. *)
Fixpoint contains (sub s : string) : bool :=
  String.prefix sub s ||
  match s with
  | EmptyString => false
  | String _ s' => contains sub s'
  end.

(* ================================================================== *)
(** * Graphs *)

(** A NetworkX node is any hashable value; the benchmark uses integers,
    strings stand for every label that is not an integer. *)
Inductive label : Type :=
| IntLabel (i : Z)
| StrLabel (s : string).

Definition label_eqb (a b : label) : bool :=
  match a, b with
  | IntLabel i, IntLabel j => i =? j
  | StrLabel s, StrLabel t => String.eqb s t
  | _, _ => false
  end.

(** [nx.Graph]: [graph.nodes()] and [graph.edges()], each edge once. *)
Record Graph : Type := mk_graph {
  nodes : list label;
  edges : list (label * label)
}.

Definition number_of_nodes (g : Graph) : nat := List.length (nodes g).

(** What NetworkX guarantees of any graph: the endpoints of an edge are
    nodes of the graph. *)
Definition mem_label (l : label) (ls : list label) : bool :=
  existsb (label_eqb l) ls.

Definition wf_graph (g : Graph) : bool :=
  forallb (fun e => mem_label (fst e) (nodes g) && mem_label (snd e) (nodes g))
          (edges g).

(** The convention of the benchmark's graph generator (K_n, cycles,
    random regular graphs): the nodes are the integers 0 .. n-1. *)
Definition label_in_range (n : nat) (l : label) : bool :=
  match l with
  | IntLabel i => (0 <=? i) && (i <? Z.of_nat n)
  | StrLabel _ => false
  end.

Definition labels_in_range (g : Graph) : bool :=
  forallb (label_in_range (number_of_nodes g)) (nodes g).

(* ================================================================== *)
(** * The exact solver *)

(** [itertools.product(pool, repeat=n)], in the order Python yields. *)
Fixpoint product {A : Type} (pool : list A) (repeat : nat) : list (list A) :=
  match repeat with
  | O => [[]]
  | S k => flat_map (fun x => map (cons x) (product pool k)) pool
  end.

(** [assignment[u]] on a tuple: an integer index counts from the end when
    negative and raises [IndexError] out of range; any other index raises
    [TypeError]. *)
Definition tuple_getitem (assignment : list Z) (u : label) : result Z :=
  match u with
  | StrLabel _ => raise TypeError
  | IntLabel i =>
      let len := Z.of_nat (List.length assignment) in
      let j := if i <? 0 then i + len else i in
      if (0 <=? j) && (j <? len)
      then ret (nth (Z.to_nat j) assignment 0)
      else raise IndexError
  end.

(** [sum(1 for u, v in graph.edges() if assignment[u] != assignment[v])]:
    the generator is consumed edge by edge, the first failing index
    aborts the sum. *)
Fixpoint count_cut_edges (es : list (label * label)) (assignment : list Z)
  : result Z :=
  match es with
  | [] => ret 0
  | (u, v) :: es' =>
      au <- tuple_getitem assignment u ;;
      av <- tuple_getitem assignment v ;;
      rest <- count_cut_edges es' assignment ;;
      ret ((if au =? av then 0 else 1) + rest)
  end.

(** The loop
<<
    for i, assignment in enumerate(product([0, 1], repeat=n)):
        cut_value = sum(...)
        best_cut = max(best_cut, cut_value)
>>
    with its running state: [best_cut] and the number [i] of assignments
    taken from the iterator so far. The second component of the outcome
    is that number when the loop ends or is aborted. *)
Fixpoint enumerate_loop (es : list (label * label))
    (assignments : list (list Z)) (i : nat) (best_cut : Z)
  : result Z * nat :=
  match assignments with
  | [] => (ret best_cut, i)
  | assignment :: rest =>
      match count_cut_edges es assignment with
      | inl e => (inl e, S i)
      | inr c => enumerate_loop es rest (S i) (Z.max best_cut c)
      end
  end.

Definition too_large_message (n max_nodes : nat) : string :=
  "Graph too large for exact computation: " ++ str_of_nat n ++
  " nodes (max " ++ str_of_nat max_nodes ++ "). " ++
  "Use --quick flag or implement heuristic baselines.".

Section ExactSolver.

(** The node count above which quick mode substitutes the Tabu value
    (12 in v2.1, 10 before), the node count above which the exact search
    is refused (24 in the refusal quoted by the stress-test report), and
    the Tabu run itself, a call into the Ocean SDK. *)
Variable quick_threshold : nat.
Variable max_exact_nodes : nat.
Variable compute_tabu_approximation : Graph -> Z.

(** Modelled from the spec: of [compute_exact_max_cut(graph, quick_mode)]
    the repository's documents quote the body of the enumeration, the
    quick-mode test
    [if quick_mode and n > 12: return compute_tabu_approximation(graph)]
    (stated to sit at the top of the function) and the text of the
    refusal, a [ValueError]; missing are the binding of [n], taken to be
    the number of nodes as the progress transcript shows (1048576
    assignments for 20 nodes), and the line of the size test, placed
    before the loop as section 5 of the spec requires (graphs above the
    cutoff are rejected up front).

    The outcome pairs the returned value or raised exception with the
    number of assignments enumerated. *)
Definition compute_exact_max_cut (graph : Graph) (quick_mode : bool)
  : result Z * nat :=
  let n := number_of_nodes graph in
  if quick_mode && (quick_threshold <? n)%nat then
    (ret (compute_tabu_approximation graph), O)
  else if (max_exact_nodes <? n)%nat then
    (raise (mk_exn "ValueError" (too_large_message n max_exact_nodes)), O)
  else
    enumerate_loop (edges graph) (product [0; 1] n) O 0.

End ExactSolver.

(* ================================================================== *)
(** * The reference notion of maximum cut *)

(** The number of edges whose endpoints receive different labels. *)
Fixpoint cut_size (es : list (label * label)) (side : label -> bool) : Z :=
  match es with
  | [] => 0
  | (u, v) :: es' =>
      (if Bool.eqb (side u) (side v) then 0 else 1) + cut_size es' side
  end.

(** [k] is the maximum of [cut_size] over all assignments of the vertices
    to the two sides. *)
Definition is_max_cut (g : Graph) (k : Z) : Prop :=
  (exists side, cut_size (edges g) side = k) /\
  (forall side, cut_size (edges g) side <= k).

(* ================================================================== *)
(** * The trial harness *)

(** The two classical samplers, under the names the reports print. *)
Inductive heuristic : Type := SimulatedAnnealing | TabuSearch.

Definition method_name (m : heuristic) : string :=
  match m with
  | SimulatedAnnealing => "Classical SA (Metropolis)"
  | TabuSearch => "Tabu Search"
  end.

(** [cut_value / exact_optimum] on two Python integers: true division,
    which raises on a zero divisor. The quotient is kept exact, where
    Python rounds it to the nearest double; [true_divide] below gives
    the same line on NumPy operands. *)
Definition quality_of (cut exact_optimum : Z) : result Q :=
  if exact_optimum =? 0 then raise ZeroDivisionError
  else ret (inject_Z cut / inject_Z exact_optimum)%Q.

(** One row of [classical_optimization_results.csv] (schema v1), the
    columns in the order of the file's header. *)
Record TrialRecord : Type := mk_trial {
  method : string;
  solution : list Z;
  cut_value : Z;
  execution_time : Q;
  trial_seed : Z;
  quality : Q;
  graph_name : string;
  exact_optimum : Z;
  schema_version : Z
}.

(** A solution as the samplers return it for an n-node graph: one value
    0 or 1 per node. *)
Definition valid_solution (n : nat) (sol : list Z) : bool :=
  (List.length sol =? n)%nat && forallb (fun x => (x =? 0) || (x =? 1)) sol.

(** The row of one trial. A runner returns the first five columns
    (method, solution, cut_value, execution_time, trial_seed); the
    harness adds the others with the lines the documents quote,
<<
    sa_result['quality'] = sa_result['cut_value'] / exact_optimum
    df['schema_version'] = 1
>>
    and the graph's name and optimum, as the CSV row shows. *)
Definition trial_row (name : string) (m : heuristic) (seed : Z)
    (elapsed : Q) (sol : list Z) (cut : Z) (optimum : Z)
  : result TrialRecord :=
  q <- quality_of cut optimum ;;
  ret {| method := method_name m; solution := sol; cut_value := cut;
         execution_time := elapsed; trial_seed := seed; quality := q;
         graph_name := name; exact_optimum := optimum;
         schema_version := 1 |}.

(* ================================================================== *)
(** * The statistical analyzer *)

Open Scope Q_scope.

(** A NumPy float: a finite value or one of the IEEE special values. *)
Inductive pyfloat : Type :=
| Finite (q : Q)
| NaN
| Inf (negative : bool).

Definition isnan (x : pyfloat) : bool :=
  match x with NaN => true | _ => false end.



Definition Qsum (xs : list Q) : Q := fold_right Qplus 0 xs.

Definition Qlen (xs : list Q) : Q := inject_Z (Z.of_nat (List.length xs)).

Definition mean (xs : list Q) : Q := Qsum xs / Qlen xs.

(** The sample variance, [ddof=1]. *)
Definition variance (xs : list Q) : Q :=
  Qsum (map (fun x => (x - mean xs) * (x - mean xs)) xs) / (Qlen xs - 1).

(** The two methods' quality samples on one graph. *)
Record Comparison : Type := mk_comparison {
  cmp_graph : string;
  sa_quality : list Q;
  tabu_quality : list Q
}.

(** Insertion sort, ascending. *)
Fixpoint insert_sorted (p : Q) (ps : list Q) : list Q :=
  match ps with
  | [] => [p]
  | q :: ps' => if Qle_bool p q then p :: ps else q :: insert_sorted p ps'
  end.

Definition sort_ascending (ps : list Q) : list Q :=
  fold_right insert_sorted [] ps.

(** Holm's step-down procedure on sorted p-values: the i-th smallest of m
    is compared with alpha / (m - i); the first failure stops the
    rejections. *)
Fixpoint holm_step_down (alpha : Q) (sorted : list Q) (remaining : nat)
  : nat :=
  match sorted with
  | [] => O
  | p :: rest =>
      if Qle_bool p (alpha / inject_Z (Z.of_nat remaining))
      then S (holm_step_down alpha rest (Nat.pred remaining))
      else O
  end.

(** The number of hypotheses that
    [multipletests(pvals, alpha, method='holm')] rejects. *)
Definition holm_significant (alpha : Q) (pvals : list Q) : nat :=
  holm_step_down alpha (sort_ascending pvals) (List.length pvals).

(** The p-values that enter the correction: those that are numbers. *)
Fixpoint valid_p_values (ps : list pyfloat) : list Q :=
  match ps with
  | [] => []
  | Finite p :: ps' => p :: valid_p_values ps'
  | _ :: ps' => valid_p_values ps'
  end.

Section Analyzer.

(** External numerics: SciPy's Welch statistic and p-value where the
    statistic is defined, Python's formatting of a finite float, and the
    two report lines whose wording the documents do not show (Cohen's d
    with its interpretation band, and the p-value of a defined test). *)
Variable scipy_welch : list Q -> list Q -> Q * Q.
Variable format_float : Q -> string.
Variable cohens_d_numeric_line : list Q -> list Q -> string.
Variable p_value_line : Q -> string.

(** Modelled from the spec: [scipy.stats.ttest_ind(a, b, equal_var=False)]
    is a library call outside the tree. Welch's statistic is the
    difference of the means over the square root of
    [var(a)/len(a) + var(b)/len(b)]: with fewer than two values in a
    sample, or with both variances zero and equal means, it is 0/0 and
    SciPy returns NaN for statistic and p-value; with both variances zero
    and different means it is infinite with p-value 0. *)
Definition ttest_ind (a b : list Q) : pyfloat * pyfloat :=
  if (List.length a <? 2)%nat || (List.length b <? 2)%nat then (NaN, NaN)
  else if Qeq_bool (variance a / Qlen a + variance b / Qlen b) 0 then
    if Qeq_bool (mean a) (mean b) then (NaN, NaN)
    else (Inf (Qle_bool (mean a) (mean b)), Finite 0)
  else
    let (t, p) := scipy_welch a b in (Finite t, Finite p).

Definition format_pyfloat (x : pyfloat) : string :=
  match x with
  | Finite q => format_float q
  | NaN => "nan"
  | Inf false => "inf"
  | Inf true => "-inf"
  end.

Definition pooled_variance (a b : list Q) : Q :=
  ((Qlen a - 1) * variance a + (Qlen b - 1) * variance b)
  / (Qlen a + Qlen b - 2).

(** The effect-size line. The zero branch is quoted by the red-team
    report:
<<
    elif pooled_std == 0:
        if abs(tabu_mean - sa_mean) < 1e-10:
            print("Cohen's d: 0.0 (identical samples)")
        else:
            print("Cohen's d: undefined (division by zero)")
>>
    [pooled_std] is the square root of the pooled variance and is zero
    exactly when the pooled variance is. *)
Definition cohens_d_line (tabu sa : list Q) : string :=
  if negb (Qeq_bool (pooled_variance tabu sa) 0) then
    cohens_d_numeric_line tabu sa
  else if negb (Qle_bool (1 # 10000000000) (Qabs (mean tabu - mean sa))) then
    "Cohen's d: 0.0 (identical samples)"
  else
    "Cohen's d: undefined (division by zero)".

Definition t_statistic_line (t : pyfloat) (n1 n2 : nat) : string :=
  "t-statistic: " ++ format_pyfloat t ++
  " (df=" ++ str_of_nat (n1 + n2 - 2) ++ ", Welch's test)".

Definition undefined_line : string := "t-test undefined (identical samples)".

(** Modelled from the spec: the analysis code is not in the tree. The
    lines are those of the README's console output example
<<
    Cohen's d: 0.0 (identical samples)
    t-statistic: nan (df=38, Welch's test)
    t-test undefined (identical samples)
>>
    the last one replacing the p-value when the test returned NaN. *)
Definition graph_report (c : Comparison) : list string :=
  let (t, p) := ttest_ind (tabu_quality c) (sa_quality c) in
  [ cohens_d_line (tabu_quality c) (sa_quality c);
    t_statistic_line t (List.length (tabu_quality c))
                       (List.length (sa_quality c));
    match p with
    | Finite q => p_value_line q
    | _ => undefined_line
    end ].

Definition p_value_of (c : Comparison) : pyfloat :=
  snd (ttest_ind (tabu_quality c) (sa_quality c)).

(** The p-values handed to the Holm-Bonferroni correction. *)
Definition corrected_p_values (cs : list Comparison) : list Q :=
  valid_p_values (map p_value_of cs).

Definition valid_tests (cs : list Comparison) : nat :=
  List.length (corrected_p_values cs).

Definition significant_after_correction (cs : list Comparison) : nat :=
  holm_significant (5 # 100) (corrected_p_values cs).

(** The denominator printed on the last two summary lines. *)
Definition summary_denominator (cs : list Comparison) : nat :=
  List.length cs.

(** Modelled from the spec: the summary code is not in the tree. The
    lines are those of the README's console output example for seven
    graphs, none with a defined test
<<
    Method: Holm-Bonferroni
    Valid tests: 0/7
    Skipped identical cases: 7
    Significant after correction: 0/7
>> *)
Definition multiple_comparison_summary (cs : list Comparison)
  : list string :=
  [ "Method: Holm-Bonferroni";
    "Valid tests: " ++ str_of_nat (valid_tests cs) ++ "/" ++
      str_of_nat (List.length cs);
    "Skipped identical cases: " ++
      str_of_nat (List.length cs - valid_tests cs);
    "Significant after correction: " ++
      str_of_nat (significant_after_correction cs) ++ "/" ++
      str_of_nat (summary_denominator cs) ].

(** The console report: per-graph statistics, then the summary. *)
Definition console_report (cs : list Comparison) : list string :=
  flat_map graph_report cs ++ multiple_comparison_summary cs.

End Analyzer.

Section Plot.

(** The square root of a double, a NumPy call. *)
Variable sqrt_float : Q -> Q.




End Plot.

Close Scope Q_scope.

(* ================================================================== *)
(** * Notions used in the statements *)

(** In a well-formed graph whose nodes are 0 .. n-1, both endpoints of
    every edge are valid tuple indices. *)
Definition edges_in_range (n : nat) (es : list (label * label)) : Prop :=
  forall u v, In (u, v) es ->
    label_in_range n u = true /\ label_in_range n v = true.

(** The labels that index a tuple of n values, Python's negative
    indices included: the integers from -n to n-1. *)
Definition index_fits (n : nat) (l : label) : bool :=
  match l with
  | IntLabel i => (- Z.of_nat n <=? i) && (i <? Z.of_nat n)
  | StrLabel _ => false
  end.

Definition binary (a : list Z) : Prop := Forall (fun x => In x [0; 1]) a.

(** The side of each vertex under a tuple of labels. *)
Definition side_of (a : list Z) (l : label) : bool :=
  match l with
  | IntLabel i => nth (Z.to_nat i) a 0 =? 1
  | StrLabel _ => false
  end.

(** The tuple that lists a side function over the vertices 0 .. n-1. *)
Definition tuple_of (side : label -> bool) (n : nat) : list Z :=
  map (fun i => Z.b2z (side (IntLabel (Z.of_nat i)))) (seq 0 n).

(* ================================================================== *)
(** * Example data *)

(** The complete graph on 0 .. 3, the graph with the single edge
    5 - 7, and a Tabu run that reports 0. *)
Definition K4 : Graph :=
  mk_graph [IntLabel 0; IntLabel 1; IntLabel 2; IntLabel 3]
    [ (IntLabel 0, IntLabel 1); (IntLabel 0, IntLabel 2);
      (IntLabel 0, IntLabel 3); (IntLabel 1, IntLabel 2);
      (IntLabel 1, IntLabel 3); (IntLabel 2, IntLabel 3) ].

Definition edge_5_7 : Graph :=
  mk_graph [IntLabel 5; IntLabel 7] [(IntLabel 5, IntLabel 7)].

Definition no_tabu (g : Graph) : Z := 0.

(** The nodes 0 and -1 joined by an edge: -1 is the last position of a
    tuple. *)
Definition edge_0_minus_1 : Graph :=
  mk_graph [IntLabel 0; IntLabel (-1)] [(IntLabel 0, IntLabel (-1))].

(** The cycle on 0 .. n-1. *)
Definition cycle_graph (n : nat) : Graph :=
  mk_graph (map (fun i => IntLabel (Z.of_nat i)) (seq 0 n))
           (map (fun i => (IntLabel (Z.of_nat i),
                           IntLabel (Z.of_nat (S i mod n)))) (seq 0 n)).


(** A Tabu run that reports 12, and the alternating colouring of 13
    nodes, which cuts 12 edges of the 13-node cycle. *)
Definition tabu_12 (g : Graph) : Z := 12.

Definition alternating_13 : list Z :=
  [0; 1; 0; 1; 0; 1; 0; 1; 0; 1; 0; 1; 0].

(** Stand-ins for the external numerics in the examples, and the
    README's example: K6 with twenty trials per method, all of quality 1. *)
Definition welch_stub (a b : list Q) : Q * Q := (0, 1)%Q.
Definition format_stub (q : Q) : string := "0.000".
Definition cohens_stub (a b : list Q) : string := "Cohen's d: 0.000".
Definition p_line_stub (p : Q) : string := "p-value: 1.000".

Definition K6_identical : Comparison :=
  mk_comparison "K6" (repeat 1%Q 20) (repeat 1%Q 20).

(* ================================================================== *)
(** * The three-node cut calculators of the QAOA case study *)

(** A Python string is modelled by the string of its characters, one
    [ascii] each: this covers the strings of ASCII characters, which is
    what the statements below are restricted to ([int] also accepts the
    decimal digits of other scripts, which have no [ascii]).

    [int(b)] on a one-character string: the decimal digits convert, any
    other ASCII character raises [ValueError]. *)
Definition is_digit (c : ascii) : bool :=
  (48 <=? nat_of_ascii c)%nat && (nat_of_ascii c <=? 57)%nat.

Definition int_of_char (c : ascii) : result Z :=
  if is_digit c then ret (Z.of_nat (nat_of_ascii c - 48))
  else raise (mk_exn "ValueError"
                ("invalid literal for int() with base 10: '" ++
                 String c "'")).

(** [[int(b) for b in bitstring]]: characters are converted left to
    right, the first bad one aborts the comprehension. *)
Fixpoint ints_of_string (bitstring : string) : result (list Z) :=
  match bitstring with
  | EmptyString => ret []
  | String b rest =>
      x <- int_of_char b ;;
      xs <- ints_of_string rest ;;
      ret (x :: xs)
  end.

(** [bits[i]] on a list, for a literal index [i >= 0]. *)
Definition list_getitem (bits : list Z) (i : nat) : result Z :=
  match nth_error bits i with
  | Some x => ret x
  | None => raise (mk_exn "IndexError" "list index out of range")
  end.

(** The verification method of the committee review:
<<
    def calculate_cut(bitstring):
        bits = [int(b) for b in bitstring]
        cut = 0
        if bits[0] != bits[1]: cut += 1  # Edge (0,1)
        if bits[1] != bits[2]: cut += 1  # Edge (1,2)
        if bits[0] != bits[2]: cut += 1  # Edge (0,2)
        return cut
>> *)
Definition calculate_cut (bitstring : string) : result Z :=
  bits <- ints_of_string bitstring ;;
  let cut := 0 in
  b0 <- list_getitem bits 0 ;;
  b1 <- list_getitem bits 1 ;;
  let cut := if b0 =? b1 then cut else cut + 1 in
  b1 <- list_getitem bits 1 ;;
  b2 <- list_getitem bits 2 ;;
  let cut := if b1 =? b2 then cut else cut + 1 in
  b0 <- list_getitem bits 0 ;;
  b2 <- list_getitem bits 2 ;;
  let cut := if b0 =? b2 then cut else cut + 1 in
  ret cut.

(** The table of the original study, as the committee review prints it. *)
Definition original_cut_values : list (string * Z) :=
  [ ("000", 0); ("001", 2); ("010", 1); ("011", 3);
    ("100", 2); ("101", 0); ("110", 3); ("111", 1) ].

(** [table[key]] on a dictionary. *)
Fixpoint dict_getitem (table : list (string * Z)) (key : string)
  : result Z :=
  match table with
  | [] => raise (mk_exn "KeyError" key)
  | (k, v) :: rest => if String.eqb k key then ret v
                      else dict_getitem rest key
  end.

(** The edges the comments of [calculate_cut] name, in its order, and
    the graph they form. *)
Definition triangle_edges : list (label * label) :=
  [ (IntLabel 0, IntLabel 1); (IntLabel 1, IntLabel 2);
    (IntLabel 0, IntLabel 2) ].

Definition triangle : Graph :=
  mk_graph [IntLabel 0; IntLabel 1; IntLabel 2] triangle_edges.

(** A string of ASCII characters (code points below 128). *)
Fixpoint ascii_only (s : string) : bool :=
  match s with
  | EmptyString => true
  | String c rest => (nat_of_ascii c <? 128)%nat && ascii_only rest
  end.

(** A string of decimal digits. *)
Fixpoint all_digits (s : string) : bool :=
  match s with
  | EmptyString => true
  | String c rest => is_digit c && all_digits rest
  end.

(** The tuple with the two labels exchanged. *)
Definition complement (a : list Z) : list Z := map (fun x => 1 - x) a.

(** The character of the other bit. *)
Definition flip_char (c : ascii) : ascii :=
  if Ascii.eqb c "0" then "1"%char
  else if Ascii.eqb c "1" then "0"%char else c.

Fixpoint flip_string (s : string) : string :=
  match s with
  | EmptyString => EmptyString
  | String c rest => String (flip_char c) (flip_string rest)
  end.

Fixpoint binary_string (s : string) : bool :=
  match s with
  | EmptyString => true
  | String c rest =>
      (Ascii.eqb c "0" || Ascii.eqb c "1") && binary_string rest
  end.

(* ================================================================== *)
(** * The circuits of the learning project *)

(** A Braket circuit as the list of the instructions added to it, in
    order; [circuit.h(i)] and [circuit.cnot(i, j)] append one each. *)
Inductive instruction : Type :=
| Had (target : Z)
| CNot (control target : Z).

Definition Circuit : Type := list instruction.

Definition h (circuit : Circuit) (i : Z) : Circuit :=
  (circuit ++ [Had i])%list.

Definition cnot (circuit : Circuit) (i j : Z) : Circuit :=
  (circuit ++ [CNot i j])%list.

(** [range(start, stop)] and [range(stop)]. *)
Definition range_from (start stop : Z) : list Z :=
  map (fun k => start + Z.of_nat k) (seq 0 (Z.to_nat (stop - start))).

Definition range (stop : Z) : list Z := range_from 0 stop.

(**
<<
    def create_spatial_chain(n_qubits):
        circuit = Circuit()
        for i in range(n_qubits):
            circuit.h(i)
        for i in range(n_qubits-1):
            circuit.cnot(i, i+1)
        return circuit
>> *)
Definition create_spatial_chain (n_qubits : Z) : Circuit :=
  let circuit := [] in
  let circuit := fold_left h (range n_qubits) circuit in
  let circuit :=
    fold_left (fun c i => cnot c i (i + 1)) (range (n_qubits - 1)) circuit in
  circuit.

(**
<<
    def create_nonspatial_mesh(n_qubits):
        circuit = Circuit()
        for i in range(n_qubits):
            circuit.h(i)
        for i in range(n_qubits):
            for j in range(i+1, n_qubits):
                circuit.cnot(i, j)
        return circuit
>> *)
Definition create_nonspatial_mesh (n_qubits : Z) : Circuit :=
  let circuit := [] in
  let circuit := fold_left h (range n_qubits) circuit in
  let circuit :=
    fold_left
      (fun c i => fold_left (fun c j => cnot c i j)
                    (range_from (i + 1) n_qubits) c)
      (range n_qubits) circuit in
  circuit.

(** The two-qubit gates of a circuit, in order. *)
Fixpoint cnots (circuit : Circuit) : list (Z * Z) :=
  match circuit with
  | [] => []
  | CNot i j :: rest => (i, j) :: cnots rest
  | Had _ :: rest => cnots rest
  end.

(* ================================================================== *)
(** * Syndrome detection of the three-qubit code *)

(**
<<
    def create_syndrome_detection_circuit():
        # S1 = q0 (+) q1, S2 = q1 (+) q2
        circuit.cnot(0, 3)  # Syndrome qubit 1
        circuit.cnot(1, 3)
        circuit.cnot(1, 4)  # Syndrome qubit 2
        circuit.cnot(2, 4)
>>
    The circuit object the function extends is passed explicitly. *)
Definition create_syndrome_detection_circuit (circuit : Circuit) : Circuit :=
  let circuit := cnot circuit 0 3 in
  let circuit := cnot circuit 1 3 in
  let circuit := cnot circuit 1 4 in
  let circuit := cnot circuit 2 4 in
  circuit.

(** The dictionary of [decode_syndrome]. *)
Definition syndrome_table : list ((Z * Z) * string) :=
  [ ((0, 0), "no_error");
    ((1, 0), "error_q0");
    ((1, 1), "error_q1");
    ((0, 1), "error_q2") ].

(** [syndrome_table[key]]. *)
Fixpoint syndrome_getitem (table : list ((Z * Z) * string)) (key : Z * Z)
  : result string :=
  match table with
  | [] => raise (mk_exn "KeyError" "syndrome")
  | ((s1, s2), v) :: rest =>
      if (s1 =? fst key) && (s2 =? snd key) then ret v
      else syndrome_getitem rest key
  end.

(** The action of a circuit on a computational basis state, one bit per
    qubit: a CNOT adds the control bit to the target bit; a Hadamard
    gate leaves the basis, as does a gate on a missing qubit. *)
Definition set_bit (state : list bool) (i : nat) (b : bool) : list bool :=
  List.app (firstn i state) (b :: skipn (S i) state).

Definition apply_on_basis (state : list bool) (g : instruction)
  : option (list bool) :=
  match g with
  | Had _ => None
  | CNot c t =>
      if (0 <=? c) && (0 <=? t) && negb (c =? t) then
        match nth_error state (Z.to_nat c), nth_error state (Z.to_nat t) with
        | Some bc, Some bt => Some (set_bit state (Z.to_nat t) (xorb bt bc))
        | _, _ => None
        end
      else None
  end.

Fixpoint run_on_basis (circuit : Circuit) (state : list bool)
  : option (list bool) :=
  match circuit with
  | [] => Some state
  | g :: rest =>
      match apply_on_basis state g with
      | Some state' => run_on_basis rest state'
      | None => None
      end
  end.

(** The codeword [b b b] with an X error on each data qubit whose flag is
    set, followed by the two syndrome qubits in state 0. *)
Definition code_state_with_errors (b e0 e1 e2 : bool) : list bool :=
  [xorb b e0; xorb b e1; xorb b e2; false; false].

(* ================================================================== *)
(** * Resource overhead of the logical qubit *)

(** The loop of [compare_logical_vs_physical_overhead]:
<<
    overhead_analysis = {}
    for key in physical_resources:
        if physical_resources[key] > 0:
            overhead_ratio = logical_resources[key] / physical_resources[key]
            overhead_analysis[f'{key}_overhead'] = overhead_ratio
>>
    A dictionary is the list of its items in insertion order. *)
Fixpoint overhead_loop (items : list (string * Z))
    (logical_resources : list (string * Z))
    (overhead_analysis : list (string * Q))
  : result (list (string * Q)) :=
  match items with
  | [] => ret overhead_analysis
  | (key, physical) :: rest =>
      if 0 <? physical then
        logical <- dict_getitem logical_resources key ;;
        overhead_loop rest logical_resources
          (List.app overhead_analysis
             [((key ++ "_overhead")%string,
               (inject_Z logical / inject_Z physical)%Q)])
      else overhead_loop rest logical_resources overhead_analysis
  end.

Definition overhead_analysis_of
    (physical_resources logical_resources : list (string * Z))
  : result (list (string * Q)) :=
  overhead_loop physical_resources logical_resources [].

(* ================================================================== *)
(** * Properties of the enumeration *)

Lemma label_eqb_eq (a b : label) : label_eqb a b = true -> a = b.
Proof.
  destruct a as [i|s], b as [j|t]; simpl; try discriminate.
  - intros H. apply Z.eqb_eq in H. now subst.
  - intros H. apply String.eqb_eq in H. now subst.
Qed.

Lemma mem_label_In (l : label) (ls : list label) :
  mem_label l ls = true -> In l ls.
Proof.
  unfold mem_label. rewrite existsb_exists.
  intros [x [Hin Heq]]. apply label_eqb_eq in Heq. now subst.
Qed.

Lemma graph_edges_in_range (g : Graph) :
  wf_graph g = true -> labels_in_range g = true ->
  edges_in_range (number_of_nodes g) (edges g).
Proof.
  unfold wf_graph, labels_in_range. rewrite !forallb_forall.
  intros Hwf Hrange u v Hin.
  specialize (Hwf (u, v) Hin). simpl in Hwf.
  apply andb_true_iff in Hwf as [Hu Hv].
  split; apply Hrange; now apply mem_label_In.
Qed.

Lemma edges_in_range_tail n e es :
  edges_in_range n (e :: es) -> edges_in_range n es.
Proof. intros H u v Hin. apply H. now right. Qed.

(** ** [itertools.product] *)

Lemma product_In {A : Type} (pool : list A) (n : nat) (a : list A) :
  In a (product pool n) <->
  List.length a = n /\ Forall (fun x => In x pool) a.
Proof.
  revert a. induction n as [|n IH]; intros a; simpl.
  - split.
    + intros [<-|[]]. split; [reflexivity | constructor].
    + intros [Hlen _]. left. destruct a; [reflexivity | discriminate].
  - rewrite in_flat_map. split.
    + intros [x [Hx Hin]]. apply in_map_iff in Hin as [t [<- Ht]].
      apply IH in Ht as [Hlen Hall]. simpl. split; [now f_equal|].
      now constructor.
    + intros [Hlen Hall]. destruct a as [|x t]; [discriminate|].
      inversion Hall; subst. exists x. split; [assumption|].
      apply in_map. apply IH. split; [now injection Hlen | assumption].
Qed.

Lemma flat_map_length_const {A B : Type} (f : A -> list B) (k : nat)
    (l : list A) :
  (forall x, List.length (f x) = k) ->
  List.length (flat_map f l) = (List.length l * k)%nat.
Proof.
  intros Hf. induction l as [|x l IH]; simpl; [reflexivity|].
  rewrite length_app, Hf, IH. reflexivity.
Qed.

(** The iterator yields [len(pool) ** n] tuples. *)
Lemma product_length {A : Type} (pool : list A) (n : nat) :
  List.length (product pool n) = (List.length pool ^ n)%nat.
Proof.
  induction n as [|n IH]; simpl; [reflexivity|].
  rewrite (flat_map_length_const _ (List.length (product pool n))).
  - now rewrite IH.
  - intros x. apply length_map.
Qed.

(** ** Indexing and counting *)

Lemma tuple_getitem_in_range (a : list Z) (u : label) :
  label_in_range (List.length a) u = true ->
  exists i, u = IntLabel i /\ 0 <= i < Z.of_nat (List.length a) /\
            tuple_getitem a u = inr (nth (Z.to_nat i) a 0).
Proof.
  destruct u as [i|s]; simpl; [|discriminate].
  intros H. apply andb_true_iff in H as [H0 H1].
  apply Z.leb_le in H0. apply Z.ltb_lt in H1.
  exists i. split; [reflexivity|]. split; [lia|].
  destruct (i <? 0) eqn:Hneg; [apply Z.ltb_lt in Hneg; lia|].
  assert (Hok : (0 <=? i) && (i <? Z.of_nat (List.length a)) = true).
  { apply andb_true_iff. split; [now apply Z.leb_le | now apply Z.ltb_lt]. }
  now rewrite Hok.
Qed.

Lemma binary_nth (a : list Z) (k : nat) :
  binary a -> nth k a 0 = 0 \/ nth k a 0 = 1.
Proof.
  intros Hb. destruct (Nat.lt_ge_cases k (List.length a)) as [Hlt|Hge].
  - unfold binary in Hb. rewrite Forall_forall in Hb.
    destruct (Hb (nth k a 0) (nth_In a 0 Hlt)) as [H|[H|[]]]; auto.
  - left. now apply nth_overflow.
Qed.

Lemma cut_size_bounds (es : list (label * label)) (side : label -> bool) :
  0 <= cut_size es side <= Z.of_nat (List.length es).
Proof.
  induction es as [|[u v] es IH]; simpl List.length; simpl cut_size; [lia|].
  destruct (Bool.eqb (side u) (side v)); lia.
Qed.

(** On a graph within range, the counting expression never raises and
    counts the edges cut by the tuple. *)
Lemma count_cut_edges_in_range (es : list (label * label)) (a : list Z) :
  edges_in_range (List.length a) es -> binary a ->
  count_cut_edges es a = inr (cut_size es (side_of a)).
Proof.
  intros Hes Hb. induction es as [|[u v] es IH]; simpl; [reflexivity|].
  destruct (Hes u v (or_introl eq_refl)) as [Hu Hv].
  destruct (tuple_getitem_in_range a u Hu) as [i [-> [_ ->]]].
  destruct (tuple_getitem_in_range a v Hv) as [j [-> [_ ->]]].
  simpl. rewrite (IH (edges_in_range_tail _ _ _ Hes)). simpl.
  unfold ret. do 2 f_equal.
  destruct (binary_nth a (Z.to_nat i) Hb) as [->| ->];
    destruct (binary_nth a (Z.to_nat j) Hb) as [->| ->]; reflexivity.
Qed.

Lemma cut_size_ext (es : list (label * label)) (s1 s2 : label -> bool) :
  (forall u v, In (u, v) es -> s1 u = s2 u /\ s1 v = s2 v) ->
  cut_size es s1 = cut_size es s2.
Proof.
  induction es as [|[u v] es IH]; intros H; simpl; [reflexivity|].
  destruct (H u v (or_introl eq_refl)) as [-> ->].
  rewrite IH; [reflexivity|]. intros u' v' Hin. apply H. now right.
Qed.

Lemma tuple_of_length side n : List.length (tuple_of side n) = n.
Proof. unfold tuple_of. now rewrite length_map, length_seq. Qed.

Lemma tuple_of_binary side n : binary (tuple_of side n).
Proof.
  unfold binary, tuple_of. rewrite Forall_forall. intros x Hin.
  apply in_map_iff in Hin as [i [<- _]].
  destruct (side (IntLabel (Z.of_nat i))); simpl; auto.
Qed.

Lemma tuple_of_nth side n (k : nat) :
  (k < n)%nat ->
  nth k (tuple_of side n) 0 = Z.b2z (side (IntLabel (Z.of_nat k))).
Proof.
  intros Hk. unfold tuple_of.
  rewrite (nth_indep _ 0 (Z.b2z (side (IntLabel (Z.of_nat O))))).
  - rewrite (map_nth (fun i => Z.b2z (side (IntLabel (Z.of_nat i))))).
    now rewrite seq_nth.
  - now rewrite length_map, length_seq.
Qed.

Lemma side_of_tuple_of side n (l : label) :
  label_in_range n l = true -> side_of (tuple_of side n) l = side l.
Proof.
  destruct l as [i|s]; simpl; [|discriminate].
  intros H. apply andb_true_iff in H as [H0 H1].
  apply Z.leb_le in H0. apply Z.ltb_lt in H1.
  rewrite tuple_of_nth by lia. rewrite Z2Nat.id by assumption.
  now destruct (side (IntLabel i)).
Qed.

(** Every assignment of the vertices appears among the tuples, with the
    cut it induces. *)
Lemma count_cut_edges_tuple_of (es : list (label * label)) side n :
  edges_in_range n es ->
  count_cut_edges es (tuple_of side n) = inr (cut_size es side).
Proof.
  intros Hes.
  rewrite count_cut_edges_in_range.
  - f_equal. apply cut_size_ext. intros u v Hin.
    destruct (Hes u v Hin) as [Hu Hv].
    split; now apply side_of_tuple_of.
  - now rewrite tuple_of_length.
  - apply tuple_of_binary.
Qed.

Lemma tuple_of_In_product side n : In (tuple_of side n) (product [0; 1] n).
Proof.
  apply product_In. split; [apply tuple_of_length | apply tuple_of_binary].
Qed.

(** ** The loop *)

(** When no tuple makes the count raise, the loop visits every tuple and
    returns the largest count, or the initial [best_cut]. *)
Lemma enumerate_loop_total (es : list (label * label))
    (l : list (list Z)) (i : nat) (b : Z) :
  (forall a, In a l -> exists c, count_cut_edges es a = inr c) ->
  exists k,
    enumerate_loop es l i b = (inr k, (i + List.length l)%nat) /\
    b <= k /\
    (forall a c, In a l -> count_cut_edges es a = inr c -> c <= k) /\
    (k = b \/ exists a, In a l /\ count_cut_edges es a = inr k).
Proof.
  revert i b. induction l as [|a l IH]; intros i b Hall; simpl.
  - exists b. rewrite Nat.add_0_r. split; [reflexivity|].
    split; [lia|]. split; [intros a c []|now left].
  - destruct (Hall a (or_introl eq_refl)) as [c Hc]. rewrite Hc.
    destruct (IH (S i) (Z.max b c)) as [k [Hrun [Hge [Hub Hwit]]]].
    { intros a' Hin. apply Hall. now right. }
    exists k. split; [rewrite Hrun; f_equal; lia|].
    split; [lia|]. split.
    + intros a' c' [<-|Hin] Hc'.
      * rewrite Hc in Hc'. injection Hc' as <-. lia.
      * eapply Hub; eassumption.
    + destruct Hwit as [->|[a' [Hin Ha']]].
      * destruct (Z.max_spec b c) as [[_ ->]|[_ ->]].
        -- right. exists a. split; [now left | assumption].
        -- now left.
      * right. exists a'. split; [now right | assumption].
Qed.

(** Whenever the loop returns, every tuple was counted without raising
    and none counted more than the returned value. *)
Lemma enumerate_loop_returns (es : list (label * label))
    (l : list (list Z)) (i j : nat) (b k : Z) :
  enumerate_loop es l i b = (inr k, j) ->
  b <= k /\
  forall a, In a l -> exists c, count_cut_edges es a = inr c /\ c <= k.
Proof.
  revert i b. induction l as [|a l IH]; intros i b; simpl.
  - intros H. injection H as <- _. split; [lia|]. intros a [].
  - destruct (count_cut_edges es a) as [e|c] eqn:Hc; [discriminate|].
    intros H. apply IH in H as [Hge Hall]. split; [lia|].
    intros a' [<-|Hin].
    + exists c. split; [assumption | lia].
    + now apply Hall.
Qed.

Lemma count_cut_edges_bounds (es : list (label * label)) (a : list Z) c :
  count_cut_edges es a = inr c -> 0 <= c <= Z.of_nat (List.length es).
Proof.
  revert c. induction es as [|[u v] es IH]; intros c; simpl.
  - intros H. injection H as <-. lia.
  - destruct (tuple_getitem a u) as [e|au]; simpl; [discriminate|].
    destruct (tuple_getitem a v) as [e|av]; simpl; [discriminate|].
    destruct (count_cut_edges es a) as [e|r]; simpl; [discriminate|].
    intros H. injection H as <-. specialize (IH r eq_refl).
    simpl List.length. destruct (au =? av); lia.
Qed.

(** ** Strings *)

Lemma prefix_app (s t : string) : String.prefix s (s ++ t) = true.
Proof.
  induction s as [|c s IH]; simpl.
  - now destruct t.
  - destruct (ascii_dec c c) as [_|Hne]; [assumption | now elim Hne].
Qed.

Lemma contains_here (sub post : string) : contains sub (sub ++ post) = true.
Proof.
  assert (Hstep : forall s, String.prefix sub s = true -> contains sub s = true).
  { intros s Hs. destruct s; cbn [contains]; now rewrite Hs. }
  apply Hstep, prefix_app.
Qed.

Lemma contains_skip (sub pre t : string) :
  contains sub t = true -> contains sub (pre ++ t) = true.
Proof.
  intros H. induction pre as [|c pre IH]; simpl; [assumption|].
  rewrite IH. apply orb_true_r.
Qed.

Lemma string_app_assoc (a b c : string) : (a ++ b) ++ c = a ++ (b ++ c).
Proof. induction a as [|x a IH]; simpl; [reflexivity | now rewrite IH]. Qed.

Lemma contains_middle (pre sub post : string) :
  contains sub (pre ++ sub ++ post) = true.
Proof. apply contains_skip, contains_here. Qed.

(* ================================================================== *)
(** * Properties of the exact solver *)

Section ExactSolverProperties.

Variable quick_threshold : nat.
Variable max_exact_nodes : nat.
Variable compute_tabu_approximation : Graph -> Z.

(** With quick mode off and the graph within the cutoff, the solver is
    the loop over all tuples. *)
Lemma exact_max_cut_unfold (g : Graph) :
  (number_of_nodes g <= max_exact_nodes)%nat ->
  compute_exact_max_cut quick_threshold max_exact_nodes
      compute_tabu_approximation g false =
  enumerate_loop (edges g) (product [0; 1] (number_of_nodes g)) O 0.
Proof.
  intros Hn. unfold compute_exact_max_cut. simpl.
  destruct (max_exact_nodes <? number_of_nodes g)%nat eqn:E;
    [apply Nat.ltb_lt in E; lia | reflexivity].
Qed.

(** The enumeration on a graph whose edges index within the tuples. *)
Lemma enumeration_is_max_cut (g : Graph) :
  edges_in_range (number_of_nodes g) (edges g) ->
  exists k,
    enumerate_loop (edges g) (product [0; 1] (number_of_nodes g)) O 0
      = (inr k, (2 ^ number_of_nodes g)%nat) /\
    is_max_cut g k.
Proof.
  intros Hes. set (n := number_of_nodes g) in *.
  assert (Hcount : forall a, In a (product [0; 1] n) ->
            count_cut_edges (edges g) a
              = inr (cut_size (edges g) (side_of a))).
  { intros a Ha. apply product_In in Ha as [Hlen Hb].
    apply count_cut_edges_in_range; [now rewrite Hlen | exact Hb]. }
  destruct (enumerate_loop_total (edges g) (product [0; 1] n) O 0)
    as [k [Hrun [Hge [Hub Hwit]]]].
  { intros a Ha. eexists. now apply Hcount. }
  exists k. split.
  - rewrite Hrun. now rewrite product_length.
  - split.
    + destruct Hwit as [->|[a [Ha Hk]]].
      * exists (fun _ => false). clear. induction (edges g) as [|[u v] es IH];
          simpl; [reflexivity | now rewrite IH].
      * exists (side_of a). rewrite (Hcount a Ha) in Hk. now injection Hk.
    + intros side. eapply Hub.
      * apply (tuple_of_In_product side n).
      * now apply count_cut_edges_tuple_of.
Qed.

(** C1 (as amended). For every graph whose nodes are the integers
    0 .. n-1 and whose node count is within the exact-computation cutoff,
    with quick mode off [compute_exact_max_cut] enumerates all 2^n
    tuples and returns the maximum, over all assignments of the vertices
    to the two sides, of the number of edges whose endpoints receive
    different labels; the value lies between 0 and the number of
    edges. *)
Theorem exact_max_cut_is_reference_max_cut (g : Graph) :
  wf_graph g = true ->
  labels_in_range g = true ->
  (number_of_nodes g <= max_exact_nodes)%nat ->
  exists k,
    compute_exact_max_cut quick_threshold max_exact_nodes
      compute_tabu_approximation g false
      = (inr k, (2 ^ number_of_nodes g)%nat) /\
    is_max_cut g k /\
    0 <= k <= Z.of_nat (List.length (edges g)).
Proof.
  intros Hwf Hrange Hn.
  destruct (enumeration_is_max_cut g (graph_edges_in_range g Hwf Hrange))
    as [k [Hrun Hmax]].
  exists k. rewrite exact_max_cut_unfold by assumption.
  repeat split; try assumption; try apply Hmax.
  - destruct Hmax as [[side <-] _]. apply cut_size_bounds.
  - destruct Hmax as [[side <-] _]. apply cut_size_bounds.
Qed.

(** C10 (as amended). The solver indexes each tuple by the node labels
    themselves. For every graph whose node labels are integers in [0, n)
    (a sufficient condition), every
    index taken during the enumeration is within the tuple, the count of
    each tuple is the cut it induces, and (within the cutoff) the solver
    returns the maximum cut without raising. *)
Theorem indexing_by_label_is_safe_in_range (g : Graph) :
  wf_graph g = true ->
  labels_in_range g = true ->
  (forall a u v,
      In a (product [0; 1] (number_of_nodes g)) -> In (u, v) (edges g) ->
      exists i j,
        u = IntLabel i /\ v = IntLabel j /\
        0 <= i < Z.of_nat (List.length a) /\
        0 <= j < Z.of_nat (List.length a) /\
        tuple_getitem a u = inr (nth (Z.to_nat i) a 0) /\
        tuple_getitem a v = inr (nth (Z.to_nat j) a 0)) /\
  (forall a,
      In a (product [0; 1] (number_of_nodes g)) ->
      count_cut_edges (edges g) a = inr (cut_size (edges g) (side_of a))) /\
  ((number_of_nodes g <= max_exact_nodes)%nat ->
   exists k,
     fst (compute_exact_max_cut quick_threshold max_exact_nodes
      compute_tabu_approximation g false) = inr k /\
     is_max_cut g k).
Proof.
  intros Hwf Hrange.
  pose proof (graph_edges_in_range g Hwf Hrange) as Hes.
  split; [|split].
  - intros a u v Ha Hin. apply product_In in Ha as [Hlen _].
    destruct (Hes u v Hin) as [Hu Hv]. rewrite <- Hlen in Hu, Hv.
    destruct (tuple_getitem_in_range a u Hu) as [i [-> [Hi Hgu]]].
    destruct (tuple_getitem_in_range a v Hv) as [j [-> [Hj Hgv]]].
    exists i, j. repeat split; try assumption; lia.
  - intros a Ha. apply product_In in Ha as [Hlen Hb].
    apply count_cut_edges_in_range; [now rewrite Hlen | exact Hb].
  - intros Hn. destruct (enumeration_is_max_cut g Hes) as [k [Hrun Hmax]].
    exists k. rewrite exact_max_cut_unfold, Hrun by assumption. now split.
Qed.

End ExactSolverProperties.

(** The optima the unit tests of the track verify, and the empty graph. *)
Example exact_max_cut_K4 :
  compute_exact_max_cut 12 24 no_tabu K4 false = (inr 4, 16%nat).
Proof. reflexivity. Qed.

Example exact_max_cut_triangle :
  compute_exact_max_cut 12 24 no_tabu (cycle_graph 3) false
    = (inr 2, 8%nat).
Proof. reflexivity. Qed.

Example exact_max_cut_no_nodes :
  compute_exact_max_cut 12 24 no_tabu (mk_graph [] []) false
    = (inr 0, 1%nat).
Proof. reflexivity. Qed.

(** Outside the range the index can fail: the graph with the single edge
    5 - 7 has two nodes, and the first tuple (0, 0) has no element 5. *)
Example indexing_fails_out_of_range :
  wf_graph edge_5_7 = true /\
  labels_in_range edge_5_7 = false /\
  compute_exact_max_cut 12 24 no_tabu edge_5_7 false
    = (inl IndexError, 1%nat).
Proof. repeat split. Qed.

(** C1, witness of the amended statement: K4 under the thresholds of
    v2.1. *)
Lemma exact_max_cut_is_reference_max_cut_K4 :
  exists k,
    compute_exact_max_cut 12 24 no_tabu K4 false
      = (inr k, (2 ^ number_of_nodes K4)%nat) /\
    is_max_cut K4 k /\
    0 <= k <= Z.of_nat (List.length (edges K4)).
Proof.
  apply (exact_max_cut_is_reference_max_cut 12 24 no_tabu K4).
  - reflexivity.
  - reflexivity.
  - vm_compute. lia.
Defined.

(** C1 as stated fails: the two-node graph with the edge 5 - 7 is within
    the cutoff, yet the solver returns no value for it (it raises
    [IndexError] on the first tuple). *)
Lemma exact_max_cut_no_value_for_labels_5_7 :
  (number_of_nodes edge_5_7 <= 24)%nat /\
  ~ (exists k,
       fst (compute_exact_max_cut 12 24 no_tabu edge_5_7 false) = inr k /\
       is_max_cut edge_5_7 k /\
       0 <= k <= Z.of_nat (List.length (edges edge_5_7))).
Proof.
  split; [vm_compute; lia|].
  intros [k [H _]]. vm_compute in H. discriminate H.
Qed.

(** C10, witness: K4. *)
Lemma indexing_by_label_is_safe_in_range_K4 :
  (forall a u v,
      In a (product [0; 1] (number_of_nodes K4)) -> In (u, v) (edges K4) ->
      exists i j,
        u = IntLabel i /\ v = IntLabel j /\
        0 <= i < Z.of_nat (List.length a) /\
        0 <= j < Z.of_nat (List.length a) /\
        tuple_getitem a u = inr (nth (Z.to_nat i) a 0) /\
        tuple_getitem a v = inr (nth (Z.to_nat j) a 0)) /\
  (forall a,
      In a (product [0; 1] (number_of_nodes K4)) ->
      count_cut_edges (edges K4) a
        = inr (cut_size (edges K4) (side_of a))) /\
  ((number_of_nodes K4 <= 24)%nat ->
   exists k,
     fst (compute_exact_max_cut 12 24 no_tabu K4 false) = inr k /\
     is_max_cut K4 k).
Proof.
  apply (indexing_by_label_is_safe_in_range 12 24 no_tabu K4).
  - reflexivity.
  - reflexivity.
Defined.

(** C10 as stated fails: the enumeration is total and meaningful not
    only under that precondition. The nodes 0 and -1 are not both in
    [0, 2), yet Python's negative index makes -1 the second position of
    each tuple: every index is within the tuple and the solver returns
    1, the maximum cut of the graph. *)
Lemma in_range_labels_are_not_necessary :
  wf_graph edge_0_minus_1 = true /\
  labels_in_range edge_0_minus_1 = false /\
  (forall a, In a (product [0; 1] (number_of_nodes edge_0_minus_1)) ->
     tuple_getitem a (IntLabel 0) = inr (nth 0 a 0) /\
     tuple_getitem a (IntLabel (-1)) = inr (nth 1 a 0)) /\
  compute_exact_max_cut 12 24 no_tabu edge_0_minus_1 false
    = (inr 1, 4%nat) /\
  is_max_cut edge_0_minus_1 1 /\
  ~ (forall g,
       wf_graph g = true ->
       (exists k,
          fst (compute_exact_max_cut 12 24 no_tabu g false) = inr k /\
          is_max_cut g k) ->
       labels_in_range g = true).
Proof.
  assert (Hmax : is_max_cut edge_0_minus_1 1).
  { split.
    - exists (fun l => label_eqb l (IntLabel 0)). reflexivity.
    - intros side. cbn [edge_0_minus_1 edges cut_size].
      destruct (Bool.eqb (side (IntLabel 0)) (side (IntLabel (-1)))); lia. }
  split; [reflexivity|]. split; [reflexivity|]. split.
  - intros a Ha. cbn in Ha.
    destruct Ha as [<-|[<-|[<-|[<-|[]]]]]; split; reflexivity.
  - split; [reflexivity|]. split; [exact Hmax|].
    intros H. specialize (H edge_0_minus_1 eq_refl).
    assert (Hfalse : labels_in_range edge_0_minus_1 = true).
    { apply H. exists 1. split; [reflexivity | exact Hmax]. }
    discriminate Hfalse.
Qed.

(* ================================================================== *)
(** * Properties of the two guards *)

Section GuardProperties.

Variable quick_threshold : nat.
Variable max_exact_nodes : nat.
Variable compute_tabu_approximation : Graph -> Z.

(** C3 (as amended). For every graph with more nodes than the exact-search
    cutoff, the solver with quick mode off raises a [ValueError] whose
    message names the number of nodes and the limit and suggests the
    [--quick] flag, and no assignment is enumerated before the failure. *)
Theorem oversized_graph_is_refused (g : Graph) :
  (max_exact_nodes < number_of_nodes g)%nat ->
  exists msg,
    compute_exact_max_cut quick_threshold max_exact_nodes
      compute_tabu_approximation g false
      = (inl (mk_exn "ValueError" msg), O) /\
    contains (str_of_nat (number_of_nodes g) ++ " nodes") msg = true /\
    contains ("(max " ++ str_of_nat max_exact_nodes ++ ")") msg = true /\
    contains "Use --quick flag" msg = true.
Proof.
  intros Hn. exists (too_large_message (number_of_nodes g) max_exact_nodes).
  split; [|split; [|split]].
  - unfold compute_exact_max_cut. simpl.
    apply Nat.ltb_lt in Hn. now rewrite Hn.
  - unfold too_large_message. apply contains_skip.
    assert (E : forall x, " nodes (max " ++ x = " nodes" ++ (" (max " ++ x))
      by reflexivity.
    rewrite E, <- string_app_assoc. apply contains_here.
  - unfold too_large_message. do 2 apply contains_skip.
    assert (E1 : forall x, " nodes (max " ++ x = " nodes " ++ ("(max " ++ x))
      by reflexivity.
    assert (E2 : forall x, "). " ++ x = ")" ++ (". " ++ x)) by reflexivity.
    rewrite E1, E2. apply contains_skip.
    rewrite <- (string_app_assoc (str_of_nat max_exact_nodes)).
    rewrite <- (string_app_assoc "(max " (str_of_nat max_exact_nodes ++ ")")).
    apply contains_here.
  - unfold too_large_message. do 4 apply contains_skip.
    apply (contains_here "Use --quick flag"
             " or implement heuristic baselines.").
Qed.

End GuardProperties.

(** C3, witness: the 30-node cycle under the cutoff 24. *)
Lemma oversized_graph_is_refused_cycle_30 :
  exists msg,
    compute_exact_max_cut 12 24 no_tabu (cycle_graph 30) false
      = (inl (mk_exn "ValueError" msg), O) /\
    contains (str_of_nat (number_of_nodes (cycle_graph 30)) ++ " nodes") msg
      = true /\
    contains ("(max " ++ str_of_nat 24 ++ ")") msg = true /\
    contains "Use --quick flag" msg = true.
Proof.
  apply (oversized_graph_is_refused 12 24 no_tabu (cycle_graph 30)).
  vm_compute. lia.
Defined.

(** C3 as stated fails: on the 30-node cycle the exception raised is not
    of a class [GraphTooLargeError]. *)
Lemma refusal_is_not_a_GraphTooLargeError :
  (24 < number_of_nodes (cycle_graph 30))%nat /\
  ~ (exists e,
       fst (compute_exact_max_cut 12 24 no_tabu (cycle_graph 30) false)
         = inl e /\
       exc_class e = "GraphTooLargeError").
Proof.
  split; [vm_compute; lia|].
  intros [e [H Hclass]]. vm_compute in H. injection H as <-.
  discriminate Hclass.
Qed.

(* ================================================================== *)
(** * Properties of the trial rows *)

Lemma valid_solution_In_product (n : nat) (sol : list Z) :
  valid_solution n sol = true -> In sol (product [0; 1] n).
Proof.
  unfold valid_solution. intros H. apply andb_true_iff in H as [Hlen Hall].
  apply Nat.eqb_eq in Hlen. apply product_In. split; [assumption|].
  rewrite forallb_forall in Hall. apply Forall_forall. intros x Hx.
  specialize (Hall x Hx). apply orb_true_iff in Hall as [H|H];
    apply Z.eqb_eq in H; subst; simpl; auto.
Qed.

Lemma quality_of_unit_interval (c opt : Z) (q : Q) :
  0 <= c <= opt -> quality_of c opt = inr q -> (0 <= q <= 1)%Q.
Proof.
  unfold quality_of. intros Hc.
  destruct (opt =? 0) eqn:E; [discriminate|]. apply Z.eqb_neq in E.
  intros H. injection H as <-.
  assert (Hpos : (0 < inject_Z opt)%Q).
  { change (inject_Z 0 < inject_Z opt)%Q. rewrite <- Zlt_Qlt. lia. }
  split.
  - apply Qle_shift_div_l; [assumption|].
    rewrite Qmult_0_l. change (inject_Z 0 <= inject_Z c)%Q.
    rewrite <- Zle_Qle. lia.
  - apply Qle_shift_div_r; [assumption|].
    rewrite Qmult_1_l, <- Zle_Qle. lia.
Qed.

(** What a row holds. *)
Lemma trial_row_returns name m seed elapsed sol cut opt row :
  trial_row name m seed elapsed sol cut opt = inr row ->
  exists q,
    quality_of cut opt = inr q /\
    row = {| method := method_name m; solution := sol; cut_value := cut;
             execution_time := elapsed; trial_seed := seed; quality := q;
             graph_name := name; exact_optimum := opt;
             schema_version := 1 |}.
Proof.
  unfold trial_row.
  destruct (quality_of cut opt) as [e|q]; simpl; [discriminate|].
  intros H. injection H as <-. now exists q.
Qed.

Section TrialProperties.

Variable quick_threshold : nat.
Variable max_exact_nodes : nat.
Variable compute_tabu_approximation : Graph -> Z.

(** C2. For every graph whose optimum came from the enumeration and for
    every heuristic solution on it (one label 0 or 1 per node), the cut
    value of the solution is defined and lies between 0 and the exact
    optimum; every row built from the trial has a quality between 0 and
    1, and a row is built whenever the optimum is positive. *)
Theorem heuristic_cut_within_exact_optimum
    (g : Graph) (quick_mode : bool) (opt : Z) (sol : list Z) :
  quick_mode && (quick_threshold <? number_of_nodes g)%nat = false ->
  fst (compute_exact_max_cut quick_threshold max_exact_nodes
         compute_tabu_approximation g quick_mode) = inr opt ->
  valid_solution (number_of_nodes g) sol = true ->
  exists cut,
    count_cut_edges (edges g) sol = inr cut /\
    0 <= cut <= opt /\
    (forall name m seed elapsed row,
       trial_row name m seed elapsed sol cut opt = inr row ->
       cut_value row = cut /\ exact_optimum row = opt /\
       (0 <= quality row <= 1)%Q) /\
    (0 < opt ->
     forall name m seed elapsed, exists row,
       trial_row name m seed elapsed sol cut opt = inr row).
Proof.
  intros Hexact Hopt Hvalid.
  unfold compute_exact_max_cut in Hopt. rewrite Hexact in Hopt.
  destruct (max_exact_nodes <? number_of_nodes g)%nat; [discriminate|].
  destruct (enumerate_loop (edges g)
              (product [0; 1] (number_of_nodes g)) O 0)
    as [res j] eqn:Hrun.
  simpl in Hopt. subst res.
  apply enumerate_loop_returns in Hrun as [_ Hall].
  destruct (Hall sol (valid_solution_In_product _ _ Hvalid))
    as [cut [Hcut Hle]].
  pose proof (count_cut_edges_bounds _ _ _ Hcut) as Hb.
  exists cut. split; [exact Hcut|]. split; [lia|]. split.
  - intros name m seed elapsed row Hrow.
    apply trial_row_returns in Hrow as [q [Hq ->]]. simpl.
    split; [reflexivity|]. split; [reflexivity|].
    apply (quality_of_unit_interval cut opt); [lia | exact Hq].
  - intros Hpos name m seed elapsed. unfold trial_row, quality_of.
    destruct (opt =? 0) eqn:E; [apply Z.eqb_eq in E; lia|].
    simpl. eexists. reflexivity.
Qed.

(** C4 (as amended). For every graph with more nodes than the quick-mode
    threshold, in quick mode the solver returns the value of the Tabu
    approximation and enumerates nothing; a trial row holds that value
    in the column [exact_optimum] and divides the cut value by it, with
    no column that tells it from an enumerated optimum. *)
Theorem quick_mode_substitutes_tabu_value (g : Graph) :
  (quick_threshold < number_of_nodes g)%nat ->
  compute_exact_max_cut quick_threshold max_exact_nodes
    compute_tabu_approximation g true
    = (inr (compute_tabu_approximation g), O) /\
  (forall name m seed elapsed sol cut row,
     trial_row name m seed elapsed sol cut (compute_tabu_approximation g)
       = inr row ->
     exact_optimum row = compute_tabu_approximation g /\
     quality row
     = (inject_Z cut / inject_Z (compute_tabu_approximation g))%Q /\
     row = {| method := method_name m; solution := sol; cut_value := cut;
              execution_time := elapsed; trial_seed := seed;
              quality := quality row; graph_name := name;
              exact_optimum := compute_tabu_approximation g;
              schema_version := 1 |}).
Proof.
  intros Hn. split.
  - unfold compute_exact_max_cut. simpl.
    apply Nat.ltb_lt in Hn. now rewrite Hn.
  - intros name m seed elapsed sol cut row Hrow.
    apply trial_row_returns in Hrow as [q [Hq ->]]. simpl.
    split; [reflexivity|]. split; [|reflexivity].
    unfold quality_of in Hq.
    destruct (compute_tabu_approximation g =? 0); [discriminate|].
    now injection Hq as <-.
Qed.


End TrialProperties.

(** C2, witness: K4, whose exact optimum is 4, and the solution
    [1, 1, 0, 0] of the CSV row quoted by the red-team report. *)
Lemma heuristic_cut_within_exact_optimum_K4 :
  exists cut,
    count_cut_edges (edges K4) [1; 1; 0; 0] = inr cut /\
    0 <= cut <= 4 /\
    (forall name m seed elapsed row,
       trial_row name m seed elapsed [1; 1; 0; 0] cut 4 = inr row ->
       cut_value row = cut /\ exact_optimum row = 4 /\
       (0 <= quality row <= 1)%Q) /\
    (0 < 4 ->
     forall name m seed elapsed, exists row,
       trial_row name m seed elapsed [1; 1; 0; 0] cut 4 = inr row).
Proof.
  apply (heuristic_cut_within_exact_optimum 12 24 no_tabu K4 false 4
           [1; 1; 0; 0]).
  - reflexivity.
  - vm_compute. reflexivity.
  - vm_compute. reflexivity.
Defined.

(** C4, witness: the 13-node cycle under the thresholds of v2.1, with a
    Tabu value of 12. *)
Lemma quick_mode_substitutes_tabu_value_cycle_13 :
  compute_exact_max_cut 12 24 tabu_12 (cycle_graph 13) true
    = (inr (tabu_12 (cycle_graph 13)), O) /\
  (forall name m seed elapsed sol cut row,
     trial_row name m seed elapsed sol cut (tabu_12 (cycle_graph 13))
       = inr row ->
     exact_optimum row = tabu_12 (cycle_graph 13) /\
     quality row = (inject_Z cut / inject_Z (tabu_12 (cycle_graph 13)))%Q /\
     row = {| method := method_name m; solution := sol; cut_value := cut;
              execution_time := elapsed; trial_seed := seed;
              quality := quality row; graph_name := name;
              exact_optimum := tabu_12 (cycle_graph 13);
              schema_version := 1 |}).
Proof.
  apply (quick_mode_substitutes_tabu_value 12 24 tabu_12 (cycle_graph 13)).
  vm_compute. lia.
Defined.

(** C4 as stated fails: on the 13-node cycle the enumeration returns 12,
    quick mode returns a Tabu value of 12, and the rows built for one and
    the same trial are one and the same row, so nothing computed from a
    row tells an approximate optimum from an exact one. *)
Lemma approximate_optimum_is_not_labelled :
  fst (compute_exact_max_cut 12 24 tabu_12 (cycle_graph 13) false) = inr 12 /\
  fst (compute_exact_max_cut 12 24 tabu_12 (cycle_graph 13) true) = inr 12 /\
  count_cut_edges (edges (cycle_graph 13)) alternating_13 = inr 12 /\
  ~ (exists is_exact : TrialRecord -> bool,
       (forall opt row,
          fst (compute_exact_max_cut 12 24 tabu_12 (cycle_graph 13) false)
            = inr opt ->
          trial_row "C13" TabuSearch 6000 (6 # 1000) alternating_13 12 opt
            = inr row ->
          is_exact row = true) /\
       (forall opt row,
          fst (compute_exact_max_cut 12 24 tabu_12 (cycle_graph 13) true)
            = inr opt ->
          trial_row "C13" TabuSearch 6000 (6 # 1000) alternating_13 12 opt
            = inr row ->
          is_exact row = false)).
Proof.
  assert (E1 : fst (compute_exact_max_cut 12 24 tabu_12 (cycle_graph 13)
                      false) = inr 12) by (vm_compute; reflexivity).
  assert (E2 : fst (compute_exact_max_cut 12 24 tabu_12 (cycle_graph 13)
                      true) = inr 12) by (vm_compute; reflexivity).
  split; [exact E1|]. split; [exact E2|].
  split; [vm_compute; reflexivity|].
  intros [is_exact [Hexact Hquick]].
  destruct (trial_row "C13" TabuSearch 6000 (6 # 1000) alternating_13 12 12)
    as [e|row] eqn:Hrow; [vm_compute in Hrow; discriminate Hrow|].
  specialize (Hexact 12 row E1 Hrow). specialize (Hquick 12 row E2 Hrow).
  congruence.
Qed.



(* ================================================================== *)
(** * Properties of the statistical report *)

Lemma valid_p_values_app (ps qs : list pyfloat) :
  valid_p_values (ps ++ qs)%list
  = (valid_p_values ps ++ valid_p_values qs)%list.
Proof.
  induction ps as [|[p| |neg] ps IH]; simpl; try assumption.
  - reflexivity.
  - now rewrite IH.
Qed.

Lemma valid_p_values_length (ps : list pyfloat) :
  (List.length (valid_p_values ps) <= List.length ps)%nat.
Proof. induction ps as [|[p| |neg] ps IH]; simpl; lia. Qed.

Lemma insert_sorted_length (p : Q) (ps : list Q) :
  List.length (insert_sorted p ps) = S (List.length ps).
Proof.
  induction ps as [|q ps IH]; simpl; [reflexivity|].
  destruct (Qle_bool p q); simpl; [reflexivity | now rewrite IH].
Qed.

Lemma sort_ascending_length (ps : list Q) :
  List.length (sort_ascending ps) = List.length ps.
Proof.
  induction ps as [|p ps IH]; simpl; [reflexivity|].
  now rewrite insert_sorted_length, IH.
Qed.

Lemma holm_step_down_le (alpha : Q) (sorted : list Q) (remaining : nat) :
  (holm_step_down alpha sorted remaining <= List.length sorted)%nat.
Proof.
  revert remaining. induction sorted as [|p rest IH]; intros r; simpl.
  - lia.
  - destruct (Qle_bool p (alpha / inject_Z (Z.of_nat r))); [|lia].
    specialize (IH (Nat.pred r)). lia.
Qed.

Lemma holm_significant_le (alpha : Q) (pvals : list Q) :
  (holm_significant alpha pvals <= List.length pvals)%nat.
Proof.
  unfold holm_significant. rewrite <- (sort_ascending_length pvals) at 2.
  apply holm_step_down_le.
Qed.


(** ** Variances are not negative *)







Section AnalyzerProperties.

Variable scipy_welch : list Q -> list Q -> Q * Q.
Variable format_float : Q -> string.
Variable cohens_d_numeric_line : list Q -> list Q -> string.
Variable p_value_line : Q -> string.
Variable sqrt_float : Q -> Q.



(** Statistic and p-value come out NaN together. *)
Lemma ttest_ind_nan_together (a b : list Q) :
  isnan (fst (ttest_ind scipy_welch a b))
  = isnan (snd (ttest_ind scipy_welch a b)).
Proof.
  unfold ttest_ind.
  destruct ((List.length a <? 2)%nat || (List.length b <? 2)%nat);
    [reflexivity|].
  destruct (Qeq_bool (variance a / Qlen a + variance b / Qlen b) 0).
  - now destruct (Qeq_bool (mean a) (mean b)).
  - now destruct (scipy_welch a b).
Qed.

(** Two samples of zero variance and equal means have no t statistic. *)
Lemma ttest_ind_identical (a b : list Q) :
  (variance a == 0)%Q -> (variance b == 0)%Q -> (mean a == mean b)%Q ->
  ttest_ind scipy_welch a b = (NaN, NaN).
Proof.
  intros Ha Hb Hm. unfold ttest_ind.
  destruct ((List.length a <? 2)%nat || (List.length b <? 2)%nat);
    [reflexivity|].
  assert (Hse : Qeq_bool (variance a / Qlen a + variance b / Qlen b) 0
                = true).
  { apply Qeq_bool_iff. rewrite Ha, Hb. unfold Qdiv.
    rewrite !Qmult_0_l. reflexivity. }
  rewrite Hse.
  assert (Hmean : Qeq_bool (mean a) (mean b) = true)
    by now apply Qeq_bool_iff.
  now rewrite Hmean.
Qed.

(** A graph without a p-value contributes nothing to the correction. *)
Lemma nan_p_value_is_skipped (c : Comparison)
    (before after : list Comparison) :
  p_value_of scipy_welch c = NaN ->
  corrected_p_values scipy_welch (before ++ c :: after)%list
  = corrected_p_values scipy_welch (before ++ after)%list.
Proof.
  intros Hp. unfold corrected_p_values.
  rewrite !map_app, !valid_p_values_app. simpl. now rewrite Hp.
Qed.

(** The report of a graph whose test returned NaN. *)
Lemma graph_report_nan (c : Comparison) :
  p_value_of scipy_welch c = NaN ->
  graph_report scipy_welch format_float cohens_d_numeric_line
    p_value_line c
  = [ cohens_d_line cohens_d_numeric_line (tabu_quality c) (sa_quality c);
      "t-statistic: nan (df=" ++
        str_of_nat (List.length (tabu_quality c)
                    + List.length (sa_quality c) - 2) ++
        ", Welch's test)";
      "t-test undefined (identical samples)" ].
Proof.
  unfold p_value_of, graph_report. intros Hp.
  pose proof (ttest_ind_nan_together (tabu_quality c) (sa_quality c)) as Hn.
  destruct (ttest_ind scipy_welch (tabu_quality c) (sa_quality c))
    as [t p]. simpl in Hp, Hn. subst p. simpl in Hn.
  destruct t; try discriminate. reflexivity.
Qed.

Lemma graph_report_in_console (c : Comparison)
    (before after : list Comparison) (line : string) :
  In line (graph_report scipy_welch format_float cohens_d_numeric_line
             p_value_line c) ->
  In line (console_report scipy_welch format_float cohens_d_numeric_line
             p_value_line (before ++ c :: after)%list).
Proof.
  intros Hin. unfold console_report. apply in_or_app. left.
  apply in_flat_map. exists c. split; [|assumption].
  apply in_or_app. right. now left.
Qed.

(** C5. For every graph on which the two methods' quality samples have
    zero variance and equal means, the report of the graph carries the
    line "t-test undefined (identical samples)" in place of a p-value,
    and the graph adds no p-value to those entering the Holm-Bonferroni
    correction. *)
Theorem identical_samples_are_reported_and_skipped
    (c : Comparison) (before after : list Comparison) :
  (variance (sa_quality c) == 0)%Q ->
  (variance (tabu_quality c) == 0)%Q ->
  (mean (sa_quality c) == mean (tabu_quality c))%Q ->
  p_value_of scipy_welch c = NaN /\
  In "t-test undefined (identical samples)"
     (graph_report scipy_welch format_float cohens_d_numeric_line
        p_value_line c) /\
  In "t-test undefined (identical samples)"
     (console_report scipy_welch format_float cohens_d_numeric_line
        p_value_line (before ++ c :: after)%list) /\
  corrected_p_values scipy_welch (before ++ c :: after)%list
  = corrected_p_values scipy_welch (before ++ after)%list.
Proof.
  intros Hsa Htabu Hmean.
  assert (Hp : p_value_of scipy_welch c = NaN).
  { unfold p_value_of. rewrite ttest_ind_identical; try assumption.
    - reflexivity.
    - now symmetry. }
  assert (Hline : In "t-test undefined (identical samples)"
                    (graph_report scipy_welch format_float
                       cohens_d_numeric_line p_value_line c)).
  { rewrite (graph_report_nan c Hp). simpl. auto. }
  split; [exact Hp|]. split; [exact Hline|]. split.
  - now apply graph_report_in_console.
  - now apply nan_p_value_is_skipped.
Qed.


(** C7 (as amended). The summary line reads
    "Significant after correction: X/Y" where Y is the number of graphs
    compared, valid or skipped, and X, the number of rejections, is at
    most the number of valid tests, itself at most Y; the number of
    valid tests is printed on the line "Valid tests: V/Y". *)
Theorem summary_denominator_is_graph_count (cs : list Comparison) :
  In ("Significant after correction: " ++
        str_of_nat (significant_after_correction scipy_welch cs) ++ "/" ++
        str_of_nat (List.length cs))
     (console_report scipy_welch format_float cohens_d_numeric_line
        p_value_line cs) /\
  In ("Valid tests: " ++ str_of_nat (valid_tests scipy_welch cs) ++ "/" ++
        str_of_nat (List.length cs))
     (console_report scipy_welch format_float cohens_d_numeric_line
        p_value_line cs) /\
  summary_denominator cs = List.length cs /\
  (significant_after_correction scipy_welch cs
   <= valid_tests scipy_welch cs)%nat /\
  (valid_tests scipy_welch cs <= summary_denominator cs)%nat.
Proof.
  split; [|split; [|split; [reflexivity|split]]].
  - unfold console_report. apply in_or_app. right.
    unfold multiple_comparison_summary, summary_denominator.
    simpl. auto.
  - unfold console_report. apply in_or_app. right.
    unfold multiple_comparison_summary. simpl. auto.
  - apply holm_significant_le.
  - unfold valid_tests, corrected_p_values, summary_denominator.
    rewrite <- (length_map (p_value_of scipy_welch) cs).
    apply valid_p_values_length.
Qed.

End AnalyzerProperties.

(** C5, witness: the README's K6 example, alone in the battery. *)
Lemma identical_samples_are_reported_and_skipped_K6 :
  p_value_of welch_stub K6_identical = NaN /\
  In "t-test undefined (identical samples)"
     (graph_report welch_stub format_stub cohens_stub p_line_stub
        K6_identical) /\
  In "t-test undefined (identical samples)"
     (console_report welch_stub format_stub cohens_stub p_line_stub
        ([] ++ K6_identical :: [])%list) /\
  corrected_p_values welch_stub ([] ++ K6_identical :: [])%list
  = corrected_p_values welch_stub ([] ++ [])%list.
Proof.
  apply (identical_samples_are_reported_and_skipped welch_stub format_stub
           cohens_stub p_line_stub K6_identical [] []).
  - vm_compute. reflexivity.
  - vm_compute. reflexivity.
  - vm_compute. reflexivity.
Defined.



(** C7 as stated fails: for the README's battery of seven graphs with
    identical samples the summary prints 0/7, while no test was valid. *)
Lemma denominator_counts_skipped_graphs :
  In "Significant after correction: 0/7"
     (console_report welch_stub format_stub cohens_stub p_line_stub
        (repeat K6_identical 7)) /\
  valid_tests welch_stub (repeat K6_identical 7) = O /\
  summary_denominator (repeat K6_identical 7)
    <> valid_tests welch_stub (repeat K6_identical 7).
Proof.
  split; [|split].
  - vm_compute. tauto.
  - vm_compute. reflexivity.
  - vm_compute. discriminate.
Qed.

(* ================================================================== *)
(** * Further properties of the enumeration *)

Lemma map_cons_NoDup {A : Type} (x : A) (l : list (list A)) :
  NoDup l -> NoDup (map (cons x) l).
Proof.
  induction 1 as [|t l Hnot Hnd IH]; simpl; constructor; [|assumption].
  rewrite in_map_iff. intros [t' [Heq Hin]].
  injection Heq as ->. contradiction.
Qed.

Lemma flat_map_cons_NoDup {A : Type} (tails : list (list A))
    (pool : list A) :
  NoDup tails -> NoDup pool ->
  NoDup (flat_map (fun x => map (cons x) tails) pool).
Proof.
  intros Htails. induction 1 as [|x pool Hnot Hnd IH]; simpl.
  - constructor.
  - apply NoDup_app.
    + now apply map_cons_NoDup.
    + assumption.
    + intros a Ha Hflat. apply in_map_iff in Ha as [t [<- _]].
      apply in_flat_map in Hflat as [y [Hy Hin]].
      apply in_map_iff in Hin as [t' [Heq _]].
      injection Heq as -> _. contradiction.
Qed.

Lemma product_NoDup {A : Type} (pool : list A) (n : nat) :
  NoDup pool -> NoDup (product pool n).
Proof.
  intros Hpool. induction n as [|n IH]; simpl.
  - constructor; [intros [] | constructor].
  - now apply flat_map_cons_NoDup.
Qed.

Lemma In_product_valid_solution (n : nat) (a : list Z) :
  In a (product [0; 1] n) -> valid_solution n a = true.
Proof.
  intros Ha. apply product_In in Ha as [Hlen Hall].
  unfold valid_solution. apply andb_true_iff. split.
  - now apply Nat.eqb_eq.
  - apply forallb_forall. intros x Hx.
    rewrite Forall_forall in Hall.
    destruct (Hall x Hx) as [<-|[<-|[]]]; reflexivity.
Qed.

(** X1. The loop of the exact solver takes each assignment of n nodes to
    the labels 0 and 1 exactly once: the tuples it iterates over are
    pairwise different, there are 2^n of them, and a list is among them
    exactly when it has one label 0 or 1 per node. *)
Theorem enumeration_visits_each_assignment_once (n : nat) :
  NoDup (product [0; 1] n) /\
  List.length (product [0; 1] n) = (2 ^ n)%nat /\
  (forall a, In a (product [0; 1] n) <-> valid_solution n a = true).
Proof.
  split; [|split].
  - apply product_NoDup. constructor.
    + intros [H|[]]. discriminate H.
    + constructor; [intros [] | constructor].
  - apply product_length.
  - intros a. split.
    + apply In_product_valid_solution.
    + apply valid_solution_In_product.
Qed.

Lemma tuple_getitem_complement (a : list Z) (u : label) :
  tuple_getitem (complement a) u
  = match tuple_getitem a u with
    | inl e => inl e
    | inr x => inr (1 - x)
    end.
Proof.
  destruct u as [i|s]; simpl; [|reflexivity].
  unfold complement. rewrite length_map.
  set (len := Z.of_nat (List.length a)).
  set (j := if i <? 0 then i + len else i).
  destruct ((0 <=? j) && (j <? len)) eqn:E; [|reflexivity].
  apply andb_true_iff in E as [H0 H1].
  apply Z.leb_le in H0. apply Z.ltb_lt in H1.
  unfold ret. f_equal.
  rewrite (nth_indep _ 0 (1 - 0)).
  - now rewrite (map_nth (fun x => 1 - x)).
  - rewrite length_map. unfold len in H1. lia.
Qed.

Lemma count_cut_edges_complement (es : list (label * label)) (a : list Z) :
  count_cut_edges es (complement a) = count_cut_edges es a.
Proof.
  induction es as [|[u v] es IH]; cbn [count_cut_edges]; [reflexivity|].
  rewrite !tuple_getitem_complement, IH.
  destruct (tuple_getitem a u) as [e|x]; cbn [bind]; [reflexivity|].
  destruct (tuple_getitem a v) as [e|y]; cbn [bind]; [reflexivity|].
  destruct (count_cut_edges es a) as [e|r]; cbn [bind]; [reflexivity|].
  unfold ret. do 2 f_equal.
  destruct (Z.eqb_spec x y) as [E1|E1], (Z.eqb_spec (1 - x) (1 - y))
    as [E2|E2]; try reflexivity; lia.
Qed.

(** X2. Exchanging the two labels of an assignment changes nothing for
    the counting expression: the complement of an enumerated tuple is
    another enumerated tuple (a different one when there is a node), and
    on any edge list both give the same count, or raise the same
    exception. *)
Theorem complement_is_enumerated_with_the_same_count
    (n : nat) (a : list Z) :
  In a (product [0; 1] n) ->
  In (complement a) (product [0; 1] n) /\
  (n <> O -> complement a <> a) /\
  (forall es, count_cut_edges es (complement a) = count_cut_edges es a).
Proof.
  intros Ha. split; [|split].
  - apply product_In in Ha as [Hlen Hall]. apply product_In. split.
    + unfold complement. now rewrite length_map.
    + unfold complement. apply Forall_forall. intros x Hx.
      apply in_map_iff in Hx as [y [<- Hy]].
      rewrite Forall_forall in Hall.
      destruct (Hall y Hy) as [<-|[<-|[]]]; simpl; auto.
  - intros Hn Heq. apply product_In in Ha as [Hlen _].
    destruct a as [|x a]; [simpl in Hlen; congruence|].
    unfold complement in Heq. cbn [map] in Heq.
    assert (Hx : 1 - x = x) by congruence. lia.
  - intros es. apply count_cut_edges_complement.
Qed.

(** X2, witness. *)
Lemma complement_is_enumerated_with_the_same_count_011 :
  In (complement [0; 1; 1]) (product [0; 1] 3) /\
  (3%nat <> O -> complement [0; 1; 1] <> [0; 1; 1]) /\
  (forall es,
     count_cut_edges es (complement [0; 1; 1])
     = count_cut_edges es [0; 1; 1]).
Proof.
  apply (complement_is_enumerated_with_the_same_count 3 [0; 1; 1]).
  vm_compute. tauto.
Defined.

(* ================================================================== *)
(** * Further properties of the exact solver and of the trial rows *)

Lemma label_eqb_refl (l : label) : label_eqb l l = true.
Proof.
  destruct l as [i|s]; simpl; [apply Z.eqb_refl | apply String.eqb_refl].
Qed.

Lemma is_max_cut_unique (g : Graph) (k k' : Z) :
  is_max_cut g k -> is_max_cut g k' -> k = k'.
Proof.
  intros [[s1 H1] Hub1] [[s2 H2] Hub2].
  specialize (Hub1 s2). specialize (Hub2 s1). lia.
Qed.

Lemma cut_size_cut_edge (es : list (label * label)) (side : label -> bool)
    (u v : label) :
  In (u, v) es -> side u <> side v -> 1 <= cut_size es side.
Proof.
  induction es as [|[u' v'] es IH]; intros Hin Hne; [destruct Hin|].
  cbn [cut_size]. pose proof (cut_size_bounds es side) as Hb.
  destruct Hin as [Heq|Hin].
  - injection Heq as -> ->.
    destruct (Bool.eqb (side u) (side v)) eqn:E; [|lia].
    apply Bool.eqb_prop in E. contradiction.
  - specialize (IH Hin Hne).
    destruct (Bool.eqb (side u') (side v')); lia.
Qed.

Lemma cut_size_only_self_loops (es : list (label * label))
    (side : label -> bool) :
  (forall u v, In (u, v) es -> u = v) -> cut_size es side = 0.
Proof.
  induction es as [|[u v] es IH]; intros Hloops; [reflexivity|].
  cbn [cut_size]. rewrite (Hloops u v (or_introl eq_refl)).
  rewrite Bool.eqb_reflx, IH; [reflexivity|].
  intros u' v' Hin. apply Hloops. now right.
Qed.

Lemma tuple_getitem_raises (a : list Z) (u : label) (e : exn) :
  tuple_getitem a u = inl e -> e = IndexError \/ e = TypeError.
Proof.
  destruct u as [i|s]; cbn [tuple_getitem].
  - destruct ((0 <=? (if i <? 0 then i + Z.of_nat (List.length a) else i))
              && ((if i <? 0 then i + Z.of_nat (List.length a) else i)
                  <? Z.of_nat (List.length a))); [discriminate|].
    intros H. injection H as <-. now left.
  - intros H. injection H as <-. now right.
Qed.

Lemma count_cut_edges_raises (es : list (label * label)) (a : list Z)
    (e : exn) :
  count_cut_edges es a = inl e -> e = IndexError \/ e = TypeError.
Proof.
  induction es as [|[u v] es IH]; cbn [count_cut_edges]; [discriminate|].
  destruct (tuple_getitem a u) as [e1|x] eqn:Hu; cbn [bind].
  { intros H. injection H as <-. eapply tuple_getitem_raises; eassumption. }
  destruct (tuple_getitem a v) as [e2|y] eqn:Hv; cbn [bind].
  { intros H. injection H as <-. eapply tuple_getitem_raises; eassumption. }
  destruct (count_cut_edges es a) as [e3|r]; cbn [bind]; [|discriminate].
  intros H. injection H as <-. now apply IH.
Qed.

Lemma enumerate_loop_raises (es : list (label * label))
    (l : list (list Z)) (i j : nat) (b : Z) (e : exn) :
  enumerate_loop es l i b = (inl e, j) -> e = IndexError \/ e = TypeError.
Proof.
  revert i b. induction l as [|a l IH]; intros i b; cbn [enumerate_loop].
  - discriminate.
  - destruct (count_cut_edges es a) as [e1|c] eqn:Hc.
    + intros H. injection H as <- _.
      eapply count_cut_edges_raises; eassumption.
    + apply IH.
Qed.

Section FurtherSolverProperties.

Variable quick_threshold : nat.
Variable max_exact_nodes : nat.
Variable compute_tabu_approximation : Graph -> Z.

(** The value the solver returns on a graph in range, with quick mode
    off. *)
Lemma exact_max_cut_returns_max_cut (g : Graph) :
  wf_graph g = true -> labels_in_range g = true ->
  (number_of_nodes g <= max_exact_nodes)%nat ->
  exists k,
    fst (compute_exact_max_cut quick_threshold max_exact_nodes
           compute_tabu_approximation g false) = inr k /\
    is_max_cut g k.
Proof.
  intros Hwf Hrange Hn.
  destruct (enumeration_is_max_cut g (graph_edges_in_range g Hwf Hrange))
    as [k [Hrun Hmax]].
  exists k. rewrite exact_max_cut_unfold, Hrun by assumption. now split.
Qed.

(** X3. On a graph with nodes 0 .. n-1 within the cutoff, the exact
    optimum is 0 exactly when every edge is a self-loop (in particular
    when there is no edge); as soon as one edge joins two different
    nodes the optimum is positive and the quality division of every
    trial succeeds. *)
Theorem optimum_is_zero_iff_only_self_loops (g : Graph) :
  wf_graph g = true ->
  labels_in_range g = true ->
  (number_of_nodes g <= max_exact_nodes)%nat ->
  (fst (compute_exact_max_cut quick_threshold max_exact_nodes
          compute_tabu_approximation g false) = inr 0
   <-> (forall u v, In (u, v) (edges g) -> u = v)) /\
  ((exists u v, In (u, v) (edges g) /\ u <> v) ->
   exists opt,
     fst (compute_exact_max_cut quick_threshold max_exact_nodes
            compute_tabu_approximation g false) = inr opt /\
     0 < opt /\
     forall name m seed elapsed sol cut, exists row,
       trial_row name m seed elapsed sol cut opt = inr row).
Proof.
  intros Hwf Hrange Hn.
  destruct (exact_max_cut_returns_max_cut g Hwf Hrange Hn)
    as [k [Hk Hmax]].
  assert (Hpos : forall u v, In (u, v) (edges g) -> u <> v -> 0 < k).
  { intros u v Hin Hne. destruct Hmax as [_ Hub].
    specialize (Hub (fun l => label_eqb l u)).
    assert (1 <= cut_size (edges g) (fun l => label_eqb l u)); [|lia].
    apply (cut_size_cut_edge _ _ u v Hin).
    rewrite label_eqb_refl.
    destruct (label_eqb v u) eqn:E; [|discriminate].
    apply label_eqb_eq in E. congruence. }
  split.
  - rewrite Hk. split.
    + intros H0 u v Hin. injection H0 as ->.
      destruct u as [i|s], v as [j|t].
      * destruct (Z.eq_dec i j) as [->|Hne]; [reflexivity|].
        assert (0 < 0); [|lia].
        apply (Hpos _ _ Hin). congruence.
      * assert (0 < 0); [|lia]. apply (Hpos _ _ Hin). discriminate.
      * assert (0 < 0); [|lia]. apply (Hpos _ _ Hin). discriminate.
      * destruct (string_dec s t) as [->|Hne]; [reflexivity|].
        assert (0 < 0); [|lia].
        apply (Hpos _ _ Hin). congruence.
    + intros Hloops. f_equal. destruct Hmax as [[side <-] _].
      now apply cut_size_only_self_loops.
  - intros [u [v [Hin Hne]]]. exists k.
    pose proof (Hpos u v Hin Hne) as Hk0.
    split; [exact Hk|]. split; [exact Hk0|].
    intros name m seed elapsed sol cut. unfold trial_row, quality_of.
    destruct (k =? 0) eqn:E; [apply Z.eqb_eq in E; lia|].
    cbn [bind]. eexists. reflexivity.
Qed.

(** X4. On a graph with nodes 0 .. n-1 within the cutoff, a trial row
    built from a solution with one label 0 or 1 per node has quality 1
    exactly when the solution is a maximum cut of the graph, and a
    quality below 1 otherwise. (Rounding the quotient to a double does
    not change either: 1 is a double, and a quotient of integers below 1
    rounds below 1.) *)
Theorem quality_is_one_iff_maximum_cut (g : Graph) (sol : list Z) :
  wf_graph g = true ->
  labels_in_range g = true ->
  (number_of_nodes g <= max_exact_nodes)%nat ->
  valid_solution (number_of_nodes g) sol = true ->
  exists opt cut,
    fst (compute_exact_max_cut quick_threshold max_exact_nodes
           compute_tabu_approximation g false) = inr opt /\
    count_cut_edges (edges g) sol = inr cut /\
    forall name m seed elapsed row,
      trial_row name m seed elapsed sol cut opt = inr row ->
      ((quality row == 1)%Q <-> is_max_cut g (cut_value row)) /\
      (~ is_max_cut g (cut_value row) -> (quality row < 1)%Q).
Proof.
  intros Hwf Hrange Hn Hvalid.
  destruct (exact_max_cut_returns_max_cut g Hwf Hrange Hn)
    as [opt [Hopt Hmax]].
  apply valid_solution_In_product in Hvalid.
  apply product_In in Hvalid as [Hlen Hbin].
  pose proof (graph_edges_in_range g Hwf Hrange) as Hes.
  rewrite <- Hlen in Hes.
  pose proof (count_cut_edges_in_range _ _ Hes Hbin) as Hcut.
  exists opt, (cut_size (edges g) (side_of sol)).
  split; [exact Hopt|]. split; [exact Hcut|].
  intros name m seed elapsed row Hrow.
  apply trial_row_returns in Hrow as [q [Hq ->]]. cbn.
  unfold quality_of in Hq.
  destruct (opt =? 0) eqn:E; [discriminate|]. apply Z.eqb_neq in E.
  injection Hq as <-.
  assert (Hnz : ~ (inject_Z opt == 0)%Q).
  { intros H0. apply E.
    apply (proj1 (inject_Z_injective opt 0)). exact H0. }
  split.
  - split.
    + intros H1.
      assert (Heq : cut_size (edges g) (side_of sol) = opt).
      { apply (proj1 (inject_Z_injective _ opt)).
        rewrite <- (Qmult_1_l (inject_Z opt)), <- H1.
        unfold Qdiv. rewrite <- Qmult_assoc, (Qmult_comm (/ inject_Z opt)).
        rewrite Qmult_inv_r by assumption. now rewrite Qmult_1_r. }
      now rewrite Heq.
    + intros Hmax'. rewrite (is_max_cut_unique g _ _ Hmax' Hmax).
      unfold Qdiv. now apply Qmult_inv_r.
  - intros Hnot.
    pose proof (proj2 Hmax (side_of sol)) as Hle.
    pose proof (cut_size_bounds (edges g) (side_of sol)) as [Hge _].
    assert (Hlt : cut_size (edges g) (side_of sol) < opt).
    { destruct (Z.eq_dec (cut_size (edges g) (side_of sol)) opt) as [Heq|];
        [|lia].
      exfalso. apply Hnot. now rewrite Heq. }
    apply Qlt_shift_div_r.
    + change (inject_Z 0 < inject_Z opt)%Q. rewrite <- Zlt_Qlt. lia.
    + rewrite Qmult_1_l, <- Zlt_Qlt. exact Hlt.
Qed.

(** X5. When the quick-mode threshold does not exceed the exact-search
    cutoff, quick mode never raises the "Graph too large" [ValueError]:
    up to the threshold it is the exact search itself, above it the
    Tabu value; on a graph with nodes 0 .. n-1 it always returns a
    value. *)
Theorem quick_mode_never_refuses (g : Graph) :
  (quick_threshold <= max_exact_nodes)%nat ->
  (forall e,
     fst (compute_exact_max_cut quick_threshold max_exact_nodes
            compute_tabu_approximation g true) = inl e ->
     exc_class e <> "ValueError") /\
  ((number_of_nodes g <= quick_threshold)%nat ->
   compute_exact_max_cut quick_threshold max_exact_nodes
     compute_tabu_approximation g true
   = compute_exact_max_cut quick_threshold max_exact_nodes
       compute_tabu_approximation g false) /\
  (wf_graph g = true -> labels_in_range g = true ->
   exists v,
     fst (compute_exact_max_cut quick_threshold max_exact_nodes
            compute_tabu_approximation g true) = inr v).
Proof.
  intros Hle.
  assert (Hsmall : (number_of_nodes g <= quick_threshold)%nat ->
            compute_exact_max_cut quick_threshold max_exact_nodes
              compute_tabu_approximation g true
            = enumerate_loop (edges g)
                (product [0; 1] (number_of_nodes g)) O 0).
  { intros Hn. unfold compute_exact_max_cut. cbn [andb].
    destruct (quick_threshold <? number_of_nodes g)%nat eqn:E1;
      [apply Nat.ltb_lt in E1; lia|].
    destruct (max_exact_nodes <? number_of_nodes g)%nat eqn:E2;
      [apply Nat.ltb_lt in E2; lia | reflexivity]. }
  assert (Hlarge : (quick_threshold < number_of_nodes g)%nat ->
            compute_exact_max_cut quick_threshold max_exact_nodes
              compute_tabu_approximation g true
            = (inr (compute_tabu_approximation g), O)).
  { intros Hn. unfold compute_exact_max_cut. cbn [andb].
    apply Nat.ltb_lt in Hn. now rewrite Hn. }
  split; [|split].
  - intros e He.
    destruct (Nat.le_gt_cases (number_of_nodes g) quick_threshold)
      as [Hn|Hn].
    + rewrite (Hsmall Hn) in He.
      destruct (enumerate_loop (edges g)
                  (product [0; 1] (number_of_nodes g)) O 0)
        as [r j] eqn:Hrun.
      cbn [fst] in He. subst r.
      apply enumerate_loop_raises in Hrun as [-> | ->]; discriminate.
    + rewrite (Hlarge Hn) in He. discriminate.
  - intros Hn. rewrite (Hsmall Hn).
    symmetry. apply exact_max_cut_unfold. lia.
  - intros Hwf Hrange.
    destruct (Nat.le_gt_cases (number_of_nodes g) quick_threshold)
      as [Hn|Hn].
    + rewrite (Hsmall Hn).
      destruct (enumeration_is_max_cut g
                  (graph_edges_in_range g Hwf Hrange)) as [k [Hrun _]].
      exists k. now rewrite Hrun.
    + rewrite (Hlarge Hn). now eexists.
Qed.

(** X6. Adding one edge between nodes of a graph (nodes 0 .. n-1, within
    the cutoff) never lowers the exact optimum and raises it by at most
    one. *)
Theorem adding_an_edge_raises_the_optimum_by_at_most_one
    (g : Graph) (u v : label) :
  wf_graph g = true ->
  labels_in_range g = true ->
  (number_of_nodes g <= max_exact_nodes)%nat ->
  mem_label u (nodes g) = true ->
  mem_label v (nodes g) = true ->
  exists k k',
    fst (compute_exact_max_cut quick_threshold max_exact_nodes
           compute_tabu_approximation g false) = inr k /\
    fst (compute_exact_max_cut quick_threshold max_exact_nodes
           compute_tabu_approximation
           (mk_graph (nodes g) ((u, v) :: edges g)) false) = inr k' /\
    k <= k' <= k + 1.
Proof.
  intros Hwf Hrange Hn Hu Hv.
  destruct (exact_max_cut_returns_max_cut g Hwf Hrange Hn)
    as [k [Hk [[s Hs] Hub]]].
  destruct (exact_max_cut_returns_max_cut
              (mk_graph (nodes g) ((u, v) :: edges g)))
    as [k' [Hk' [[s' Hs'] Hub']]].
  { unfold wf_graph. cbn [edges nodes forallb fst snd].
    rewrite Hu, Hv. exact Hwf. }
  { exact Hrange. }
  { exact Hn. }
  exists k, k'. split; [exact Hk|]. split; [exact Hk'|].
  cbn [edges cut_size] in Hs', Hub'.
  specialize (Hub' s). specialize (Hub s').
  destruct (Bool.eqb (s u) (s v)), (Bool.eqb (s' u) (s' v)); lia.
Qed.

End FurtherSolverProperties.

(** X3, witness: K4. *)
Lemma optimum_is_zero_iff_only_self_loops_K4 :
  (fst (compute_exact_max_cut 12 24 no_tabu K4 false) = inr 0
   <-> (forall u v, In (u, v) (edges K4) -> u = v)) /\
  ((exists u v, In (u, v) (edges K4) /\ u <> v) ->
   exists opt,
     fst (compute_exact_max_cut 12 24 no_tabu K4 false) = inr opt /\
     0 < opt /\
     forall name m seed elapsed sol cut, exists row,
       trial_row name m seed elapsed sol cut opt = inr row).
Proof.
  apply (optimum_is_zero_iff_only_self_loops 12 24 no_tabu K4).
  - reflexivity.
  - reflexivity.
  - vm_compute. lia.
Defined.

(** X4, witness: K4 and the solution of the quoted CSV row. *)
Lemma quality_is_one_iff_maximum_cut_K4 :
  exists opt cut,
    fst (compute_exact_max_cut 12 24 no_tabu K4 false) = inr opt /\
    count_cut_edges (edges K4) [1; 1; 0; 0] = inr cut /\
    forall name m seed elapsed row,
      trial_row name m seed elapsed [1; 1; 0; 0] cut opt = inr row ->
      ((quality row == 1)%Q <-> is_max_cut K4 (cut_value row)) /\
      (~ is_max_cut K4 (cut_value row) -> (quality row < 1)%Q).
Proof.
  apply (quality_is_one_iff_maximum_cut 12 24 no_tabu K4 [1; 1; 0; 0]).
  - reflexivity.
  - reflexivity.
  - vm_compute. lia.
  - reflexivity.
Defined.

(** X5, witness: the thresholds of v2.1 and the 13-node cycle. *)
Lemma quick_mode_never_refuses_cycle_13 :
  (forall e,
     fst (compute_exact_max_cut 12 24 tabu_12 (cycle_graph 13) true)
       = inl e ->
     exc_class e <> "ValueError") /\
  ((number_of_nodes (cycle_graph 13) <= 12)%nat ->
   compute_exact_max_cut 12 24 tabu_12 (cycle_graph 13) true
   = compute_exact_max_cut 12 24 tabu_12 (cycle_graph 13) false) /\
  (wf_graph (cycle_graph 13) = true ->
   labels_in_range (cycle_graph 13) = true ->
   exists v,
     fst (compute_exact_max_cut 12 24 tabu_12 (cycle_graph 13) true)
       = inr v).
Proof.
  apply (quick_mode_never_refuses 12 24 tabu_12 (cycle_graph 13)). lia.
Defined.

(** X6, witness: the chord 0 - 2 added to the 4-node cycle. *)
Lemma adding_an_edge_raises_the_optimum_by_at_most_one_C4 :
  exists k k',
    fst (compute_exact_max_cut 12 24 no_tabu (cycle_graph 4) false)
      = inr k /\
    fst (compute_exact_max_cut 12 24 no_tabu
           (mk_graph (nodes (cycle_graph 4))
              ((IntLabel 0, IntLabel 2) :: edges (cycle_graph 4)))
           false) = inr k' /\
    k <= k' <= k + 1.
Proof.
  apply (adding_an_edge_raises_the_optimum_by_at_most_one 12 24 no_tabu
           (cycle_graph 4) (IntLabel 0) (IntLabel 2)).
  - reflexivity.
  - reflexivity.
  - vm_compute. lia.
  - reflexivity.
  - reflexivity.
Defined.

(* ================================================================== *)
(** * Properties of the three-node cut calculators *)

Lemma ints_of_string_digits (s : string) :
  all_digits s = true ->
  exists bits,
    ints_of_string s = inr bits /\ List.length bits = String.length s.
Proof.
  induction s as [|c s IH]; cbn [all_digits ints_of_string String.length].
  - intros _. now exists [].
  - intros H. apply andb_true_iff in H as [Hc Hs].
    destruct (IH Hs) as [bits [Hbits Hlen]].
    unfold int_of_char. rewrite Hc, Hbits. cbn [bind ret].
    eexists. split; [reflexivity|]. cbn [List.length]. now rewrite Hlen.
Qed.

Lemma ints_of_string_bad_character (s : string) :
  all_digits s = false ->
  exists e, ints_of_string s = inl e /\ exc_class e = "ValueError".
Proof.
  induction s as [|c s IH]; cbn [all_digits ints_of_string].
  - discriminate.
  - intros H. unfold int_of_char.
    destruct (is_digit c); cbn [andb] in H; cbn [bind ret raise].
    + destruct (IH H) as [e [-> Hclass]]. cbn [bind]. now exists e.
    + eexists. split; reflexivity.
Qed.

(** X7. For every string of decimal digits with at least three
    characters, [calculate_cut] is the counting expression of the exact
    solver on the triangle (edges 0-1, 1-2, 0-2) applied to the digits:
    the two code places compute the same cut. *)
Theorem calculate_cut_counts_the_triangle (s : string) :
  all_digits s = true ->
  (3 <= String.length s)%nat ->
  exists bits,
    ints_of_string s = inr bits /\
    calculate_cut s = count_cut_edges triangle_edges bits.
Proof.
  intros Hdigits Hlen.
  destruct (ints_of_string_digits s Hdigits) as [bits [Hbits Hl]].
  exists bits. split; [exact Hbits|].
  unfold calculate_cut. rewrite Hbits. cbn [bind].
  destruct bits as [|b0 [|b1 [|b2 tl]]];
    try (cbn [List.length] in Hl; lia).
  cbn [list_getitem nth_error bind ret].
  cbn [triangle_edges count_cut_edges tuple_getitem].
  assert (H3 : 3 <= Z.of_nat (List.length (b0 :: b1 :: b2 :: tl))).
  { cbn [List.length]. lia. }
  replace (0 <? 0) with false by reflexivity.
  replace (1 <? 0) with false by reflexivity.
  replace (2 <? 0) with false by reflexivity.
  assert (E0 : (0 <=? 0) && (0 <? Z.of_nat
              (List.length (b0 :: b1 :: b2 :: tl))) = true).
  { apply andb_true_iff. split; [reflexivity | apply Z.ltb_lt; lia]. }
  assert (E1 : (0 <=? 1) && (1 <? Z.of_nat
              (List.length (b0 :: b1 :: b2 :: tl))) = true).
  { apply andb_true_iff. split; [reflexivity | apply Z.ltb_lt; lia]. }
  assert (E2 : (0 <=? 2) && (2 <? Z.of_nat
              (List.length (b0 :: b1 :: b2 :: tl))) = true).
  { apply andb_true_iff. split; [reflexivity | apply Z.ltb_lt; lia]. }
  rewrite E0, E1, E2.
  change (nth (Z.to_nat 0) (b0 :: b1 :: b2 :: tl) 0) with b0.
  change (nth (Z.to_nat 1) (b0 :: b1 :: b2 :: tl) 0) with b1.
  change (nth (Z.to_nat 2) (b0 :: b1 :: b2 :: tl) 0) with b2.
  cbn [bind ret].
  destruct (b0 =? b1), (b1 =? b2), (b0 =? b2); reflexivity.
Qed.

(** X7, witness: the string of the case study. *)
Lemma calculate_cut_counts_the_triangle_101 :
  exists bits,
    ints_of_string "101" = inr bits /\
    calculate_cut "101" = count_cut_edges triangle_edges bits.
Proof.
  apply (calculate_cut_counts_the_triangle "101").
  - reflexivity.
  - vm_compute. lia.
Defined.

(** X8. Among the strings of ASCII characters, [calculate_cut] returns
    a value exactly on the strings of decimal digits with at least three
    characters; a character that is not a digit, anywhere in the string,
    raises [ValueError], and a string of fewer than three digits raises
    [IndexError]. *)
Theorem calculate_cut_error_behaviour (s : string) :
  ascii_only s = true ->
  ((exists c, calculate_cut s = inr c)
   <-> all_digits s = true /\ (3 <= String.length s)%nat) /\
  (all_digits s = false ->
   exists e, calculate_cut s = inl e /\ exc_class e = "ValueError") /\
  (all_digits s = true -> (String.length s < 3)%nat ->
   calculate_cut s = inl (mk_exn "IndexError" "list index out of range")).
Proof.
  intros _.
  assert (Hbad : all_digits s = false ->
            exists e, calculate_cut s = inl e /\ exc_class e = "ValueError").
  { intros H. destruct (ints_of_string_bad_character s H) as [e [He Hc]].
    exists e. unfold calculate_cut. rewrite He. now split. }
  assert (Hshort : all_digits s = true -> (String.length s < 3)%nat ->
            calculate_cut s
            = inl (mk_exn "IndexError" "list index out of range")).
  { intros H Hlen. destruct (ints_of_string_digits s H) as [bits [Hb Hl]].
    unfold calculate_cut. rewrite Hb. cbn [bind].
    destruct bits as [|b0 [|b1 [|b2 tl]]]; try reflexivity.
    cbn [List.length] in Hl. lia. }
  split; [|split; assumption].
  split.
  - intros [c Hc]. destruct (all_digits s) eqn:Hd.
    + split; [reflexivity|].
      destruct (Nat.le_gt_cases 3 (String.length s)) as [Hl|Hl];
        [assumption|].
      rewrite (Hshort eq_refl Hl) in Hc. discriminate.
    + destruct (Hbad eq_refl) as [e [He _]]. congruence.
  - intros [Hd Hl].
    destruct (ints_of_string_digits s Hd) as [bits [Hb Hlen]].
    unfold calculate_cut. rewrite Hb. cbn [bind].
    destruct bits as [|b0 [|b1 [|b2 tl]]];
      try (cbn [List.length] in Hlen; lia).
    cbn [list_getitem nth_error bind ret]. eexists. reflexivity.
Qed.

(** X8, witness: a letter between two digits. *)
Lemma calculate_cut_error_behaviour_1a1 :
  ((exists c, calculate_cut "1a1" = inr c)
   <-> all_digits "1a1" = true /\ (3 <= String.length "1a1")%nat) /\
  (all_digits "1a1" = false ->
   exists e, calculate_cut "1a1" = inl e /\ exc_class e = "ValueError") /\
  (all_digits "1a1" = true -> (String.length "1a1" < 3)%nat ->
   calculate_cut "1a1"
   = inl (mk_exn "IndexError" "list index out of range")).
Proof.
  apply (calculate_cut_error_behaviour "1a1"). reflexivity.
Defined.

Lemma binary_string_all_digits (s : string) :
  binary_string s = true -> all_digits s = true.
Proof.
  induction s as [|c s IH]; cbn [binary_string all_digits]; [reflexivity|].
  intros H. apply andb_true_iff in H as [Hc Hs].
  rewrite (IH Hs), andb_true_r.
  apply orb_true_iff in Hc as [Hc|Hc]; apply Ascii.eqb_eq in Hc; subst;
    reflexivity.
Qed.

Lemma binary_string_head (c : ascii) (s : string) :
  binary_string (String c s) = true ->
  (c = "0"%char \/ c = "1"%char) /\ binary_string s = true.
Proof.
  cbn [binary_string]. intros H. apply andb_true_iff in H as [Hc Hs].
  split; [|assumption].
  apply orb_true_iff in Hc as [Hc|Hc]; apply Ascii.eqb_eq in Hc; auto.
Qed.

(** X9. On a string of the characters 0 and 1 with at least three
    characters [calculate_cut] returns 0 or 2, never 1 or 3; it returns
    0 exactly when the first three characters are equal; 2 is the
    optimum the exact solver finds for the triangle. *)
Theorem calculate_cut_of_a_bitstring_is_0_or_2 (s : string) :
  binary_string s = true ->
  (3 <= String.length s)%nat ->
  (calculate_cut s = inr 0 \/ calculate_cut s = inr 2) /\
  (calculate_cut s = inr 0
   <-> exists c rest, s = String c (String c (String c rest))) /\
  fst (compute_exact_max_cut 12 24 no_tabu triangle false) = inr 2.
Proof.
  intros Hbin Hlen.
  destruct s as [|c0 [|c1 [|c2 rest]]];
    try (cbn [String.length] in Hlen; lia).
  apply binary_string_head in Hbin as [H0 Hbin].
  apply binary_string_head in Hbin as [H1 Hbin].
  apply binary_string_head in Hbin as [H2 Hbin].
  destruct (ints_of_string_digits rest (binary_string_all_digits _ Hbin))
    as [tl [Htl _]].
  assert (Hcut : forall x0 x1 x2 : ascii,
            (x0 = "0"%char \/ x0 = "1"%char) ->
            (x1 = "0"%char \/ x1 = "1"%char) ->
            (x2 = "0"%char \/ x2 = "1"%char) ->
            calculate_cut (String x0 (String x1 (String x2 rest)))
            = inr (if Ascii.eqb x0 x1 && Ascii.eqb x1 x2 then 0 else 2)).
  { intros x0 x1 x2 [-> | ->] [-> | ->] [-> | ->];
      unfold calculate_cut; cbn [ints_of_string];
      change (int_of_char "0") with (@inr exn Z 0);
      change (int_of_char "1") with (@inr exn Z 1);
      rewrite Htl; reflexivity. }
  rewrite (Hcut c0 c1 c2 H0 H1 H2).
  split; [|split].
  - destruct (Ascii.eqb c0 c1 && Ascii.eqb c1 c2); auto.
  - split.
    + intros H. destruct (Ascii.eqb c0 c1 && Ascii.eqb c1 c2) eqn:E;
        [|discriminate].
      apply andb_true_iff in E as [E1 E2].
      apply Ascii.eqb_eq in E1. apply Ascii.eqb_eq in E2. subst.
      now exists c2, rest.
    + intros [c [rest' Heq]]. injection Heq as -> -> -> _.
      now rewrite Ascii.eqb_refl.
  - reflexivity.
Qed.

(** X9, witness. *)
Lemma calculate_cut_of_a_bitstring_is_0_or_2_for_0110 :
  (calculate_cut "0110" = inr 0 \/ calculate_cut "0110" = inr 2) /\
  (calculate_cut "0110" = inr 0
   <-> exists c rest, "0110" = String c (String c (String c rest))) /\
  fst (compute_exact_max_cut 12 24 no_tabu triangle false) = inr 2.
Proof.
  apply (calculate_cut_of_a_bitstring_is_0_or_2 "0110").
  - reflexivity.
  - vm_compute. lia.
Defined.

Lemma tuple_getitem_constant (b : Z) (a : list Z) (u : label) (x : Z) :
  Forall (eq b) a -> tuple_getitem a u = inr x -> x = b.
Proof.
  intros Hall. destruct u as [i|s]; cbn [tuple_getitem]; [|discriminate].
  set (j := if i <? 0 then i + Z.of_nat (List.length a) else i).
  destruct ((0 <=? j) && (j <? Z.of_nat (List.length a))) eqn:E;
    [|discriminate].
  apply andb_true_iff in E as [Hj0 Hj1].
  apply Z.leb_le in Hj0. apply Z.ltb_lt in Hj1.
  intros H. injection H as <-.
  rewrite Forall_forall in Hall. symmetry. apply Hall.
  apply nth_In. lia.
Qed.

(** An assignment that puts every node on the same side cuts nothing. *)
Lemma count_cut_edges_constant (b : Z) (es : list (label * label))
    (a : list Z) (c : Z) :
  Forall (eq b) a -> count_cut_edges es a = inr c -> c = 0.
Proof.
  intros Hall. revert c.
  induction es as [|[u v] es IH]; intros c; cbn [count_cut_edges].
  - intros H. now injection H as <-.
  - destruct (tuple_getitem a u) as [e|x] eqn:Hu; cbn [bind];
      [discriminate|].
    destruct (tuple_getitem a v) as [e|y] eqn:Hv; cbn [bind];
      [discriminate|].
    destruct (count_cut_edges es a) as [e|r]; cbn [bind]; [discriminate|].
    intros H. injection H as <-.
    rewrite (tuple_getitem_constant b a u x Hall Hu).
    rewrite (tuple_getitem_constant b a v y Hall Hv).
    rewrite Z.eqb_refl, (IH r eq_refl). reflexivity.
Qed.

(** X10. The table of the original study and [calculate_cut] agree on
    exactly three of its eight keys, 000, 001 and 100; the table is the
    cut count of no graph at all: it gives 1 to the string 111 and 0 to
    its complement 000, while on any edge list the counting expression
    of the exact solver gives 0 (or raises) for the tuple (1, 1, 1). *)
Theorem original_table_is_not_a_cut_count :
  map fst
    (filter (fun kv => match calculate_cut (fst kv) with
                       | inr c => c =? snd kv
                       | inl _ => false
                       end) original_cut_values)
  = ["000"; "001"; "100"] /\
  List.length original_cut_values = 8%nat /\
  ints_of_string "111" = inr [1; 1; 1] /\
  dict_getitem original_cut_values "111" = inr 1 /\
  dict_getitem original_cut_values (flip_string "111") = inr 0 /\
  (forall es,
     count_cut_edges es [1; 1; 1]
     <> dict_getitem original_cut_values "111").
Proof.
  repeat split.
  intros es H. change (dict_getitem original_cut_values "111")
    with (@inr exn Z 1) in H.
  apply (count_cut_edges_constant 1) in H; [discriminate|].
  repeat constructor.
Qed.

(* ================================================================== *)
(** * Properties of the circuits of the learning project *)

Lemma fold_left_h (l : list Z) (c : Circuit) :
  fold_left h l c = (c ++ map Had l)%list.
Proof.
  revert c. induction l as [|i l IH]; intros c; cbn [fold_left map].
  - now rewrite app_nil_r.
  - rewrite IH. unfold h. now rewrite <- app_assoc.
Qed.

Lemma fold_left_cnot (f g : Z -> Z) (l : list Z) (c : Circuit) :
  fold_left (fun c i => cnot c (f i) (g i)) l c
  = (c ++ map (fun i => CNot (f i) (g i)) l)%list.
Proof.
  revert c. induction l as [|i l IH]; intros c; cbn [fold_left map].
  - now rewrite app_nil_r.
  - rewrite IH. unfold cnot. now rewrite <- app_assoc.
Qed.

Lemma fold_left_cnot_rows (rows : Z -> list Z) (l : list Z) (c : Circuit) :
  fold_left (fun c i => fold_left (fun c j => cnot c i j) (rows i) c) l c
  = (c ++ flat_map (fun i => map (CNot i) (rows i)) l)%list.
Proof.
  revert c. induction l as [|i l IH]; intros c; cbn [fold_left flat_map].
  - now rewrite app_nil_r.
  - rewrite IH, (fold_left_cnot (fun _ => i) (fun j => j)).
    now rewrite <- app_assoc.
Qed.

(** The two circuits as lists. *)
Lemma create_spatial_chain_eq (n : Z) :
  create_spatial_chain n
  = (map Had (range n)
     ++ map (fun i => CNot i (i + 1)) (range (n - 1)))%list.
Proof.
  unfold create_spatial_chain.
  now rewrite fold_left_h, (fold_left_cnot (fun i => i) (fun i => i + 1)).
Qed.

Lemma create_nonspatial_mesh_eq (n : Z) :
  create_nonspatial_mesh n
  = (map Had (range n)
     ++ flat_map (fun i => map (CNot i) (range_from (i + 1) n))
          (range n))%list.
Proof.
  unfold create_nonspatial_mesh.
  now rewrite fold_left_h, fold_left_cnot_rows.
Qed.

Lemma range_from_In (a b k : Z) : In k (range_from a b) <-> a <= k < b.
Proof.
  unfold range_from. rewrite in_map_iff. split.
  - intros [t [<- Ht]]. apply in_seq in Ht. lia.
  - intros Hk. exists (Z.to_nat (k - a)). split; [lia|].
    apply in_seq. lia.
Qed.

Lemma range_from_length (a b : Z) :
  List.length (range_from a b) = Z.to_nat (b - a).
Proof. unfold range_from. now rewrite length_map, length_seq. Qed.

Lemma map_injective_NoDup {A B : Type} (f : A -> B) (l : list A) :
  (forall x y, f x = f y -> x = y) -> NoDup l -> NoDup (map f l).
Proof.
  intros Hinj. induction 1 as [|x l Hnot Hnd IH]; cbn [map]; constructor;
    [|assumption].
  rewrite in_map_iff. intros [y [Heq Hy]].
  apply Hinj in Heq. now subst.
Qed.

Lemma range_from_NoDup (a b : Z) : NoDup (range_from a b).
Proof.
  unfold range_from. apply map_injective_NoDup; [|apply seq_NoDup].
  intros x y H. lia.
Qed.

Lemma range_from_empty (a b : Z) : b <= a -> range_from a b = [].
Proof.
  intros H. unfold range_from.
  replace (Z.to_nat (b - a)) with O by lia. reflexivity.
Qed.

Lemma cnots_app (c1 c2 : Circuit) :
  cnots (c1 ++ c2)%list = (cnots c1 ++ cnots c2)%list.
Proof.
  induction c1 as [|[q|i j] c1 IH]; cbn [cnots app]; [reflexivity| |];
    now rewrite IH.
Qed.

Lemma cnots_hadamards (l : list Z) : cnots (map Had l) = [].
Proof. induction l as [|q l IH]; cbn [cnots map]; auto. Qed.

Lemma cnots_map_cnot (f g : Z -> Z) (l : list Z) :
  cnots (map (fun i => CNot (f i) (g i)) l)
  = map (fun i => (f i, g i)) l.
Proof. induction l as [|i l IH]; cbn [cnots map]; [|rewrite IH]; auto. Qed.

Lemma cnots_rows (rows : Z -> list Z) (l : list Z) :
  cnots (flat_map (fun i => map (CNot i) (rows i)) l)
  = flat_map (fun i => map (pair i) (rows i)) l.
Proof.
  induction l as [|i l IH]; cbn [flat_map cnots]; [reflexivity|].
  rewrite cnots_app, IH. f_equal.
  apply (cnots_map_cnot (fun _ => i) (fun j => j)).
Qed.

Lemma cnots_spatial_chain (n : Z) :
  cnots (create_spatial_chain n)
  = map (fun i => (i, i + 1)) (range (n - 1)).
Proof.
  rewrite create_spatial_chain_eq, cnots_app, cnots_hadamards.
  apply (cnots_map_cnot (fun i => i) (fun i => i + 1)).
Qed.

Lemma cnots_nonspatial_mesh (n : Z) :
  cnots (create_nonspatial_mesh n)
  = flat_map (fun i => map (pair i) (range_from (i + 1) n)) (range n).
Proof.
  rewrite create_nonspatial_mesh_eq, cnots_app, cnots_hadamards.
  apply cnots_rows.
Qed.

(** X11. The two-qubit gates of the two circuits: the mesh holds a CNOT
    on (i, j) exactly for 0 <= i < j < n, each pair once; the chain
    holds one exactly for the neighbours j = i + 1 of that range, each
    once. *)
Theorem mesh_connects_every_pair_chain_only_neighbours (n i j : Z) :
  (In (i, j) (cnots (create_nonspatial_mesh n)) <-> 0 <= i < j /\ j < n) /\
  (In (i, j) (cnots (create_spatial_chain n))
   <-> 0 <= i /\ j = i + 1 /\ j < n) /\
  NoDup (cnots (create_nonspatial_mesh n)) /\
  NoDup (cnots (create_spatial_chain n)).
Proof.
  rewrite cnots_nonspatial_mesh, cnots_spatial_chain.
  split; [|split; [|split]].
  - rewrite in_flat_map. split.
    + intros [k [Hk Hin]]. apply in_map_iff in Hin as [t [Heq Ht]].
      injection Heq as -> ->.
      apply range_from_In in Hk. apply range_from_In in Ht. lia.
    + intros H. exists i. split; [apply range_from_In; lia|].
      apply in_map. apply range_from_In. lia.
  - rewrite in_map_iff. split.
    + intros [k [Heq Hk]]. injection Heq as -> <-.
      apply range_from_In in Hk. lia.
    + intros [H0 [-> H1]]. exists i. split; [reflexivity|].
      apply range_from_In. lia.
  - generalize (range_from_NoDup 0 n). unfold range.
    induction (range_from 0 n) as [|k l IH]; intros Hnd; cbn [flat_map].
    + constructor.
    + apply NoDup_cons_iff in Hnd as [Hk Hnd]. apply NoDup_app.
      * apply map_injective_NoDup; [|apply range_from_NoDup].
        intros x y H. now injection H.
      * now apply IH.
      * intros [x y] Hin Hflat. apply in_map_iff in Hin as [t [Heq _]].
        injection Heq as <- _.
        apply in_flat_map in Hflat as [k' [Hk' Hin']].
        apply in_map_iff in Hin' as [t' [Heq' _]].
        injection Heq' as -> _. contradiction.
  - apply map_injective_NoDup; [|apply range_from_NoDup].
    intros x y H. now injection H.
Qed.

Lemma range_unfold (n : Z) :
  range n = map (fun k => 0 + Z.of_nat k) (seq 0 (Z.to_nat n)).
Proof. unfold range, range_from. now rewrite Z.sub_0_r. Qed.

Lemma mesh_rows_length (n : Z) (len a : nat) :
  Z.of_nat (a + len) = n ->
  Nat.mul 2
    (List.length
       (flat_map (fun i => map (pair i) (range_from (i + 1) n))
          (map (fun k => 0 + Z.of_nat k) (seq a len))))
  = Nat.mul len (Nat.sub len 1).
Proof.
  revert a. induction len as [|len IH]; intros a Hn; [reflexivity|].
  cbn [seq map flat_map]. rewrite length_app, length_map, range_from_length.
  rewrite Nat.mul_add_distr_l, (IH (S a)) by lia.
  replace (Z.to_nat (n - (0 + Z.of_nat a + 1))) with len by lia.
  destruct len; cbn; lia.
Qed.

(** X12. Gate counts, for n >= 0 qubits: both circuits start with n
    Hadamard gates; the chain adds n - 1 CNOT gates (none for n = 0), the
    mesh n (n - 1) / 2. *)
Theorem circuit_gate_counts (n : Z) :
  0 <= n ->
  Z.of_nat (List.length (cnots (create_spatial_chain n))) = Z.max 0 (n - 1) /\
  2 * Z.of_nat (List.length (cnots (create_nonspatial_mesh n)))
    = n * (n - 1) /\
  Z.of_nat (List.length (create_spatial_chain n))
    = n + Z.max 0 (n - 1) /\
  2 * Z.of_nat (List.length (create_nonspatial_mesh n)) = n * (n + 1).
Proof.
  intros Hn.
  assert (Hchain : Z.of_nat (List.length (cnots (create_spatial_chain n)))
                   = Z.max 0 (n - 1)).
  { rewrite cnots_spatial_chain, length_map. unfold range.
    rewrite range_from_length. lia. }
  assert (Hmesh : 2 * Z.of_nat (List.length
                                  (cnots (create_nonspatial_mesh n)))
                  = n * (n - 1)).
  { rewrite cnots_nonspatial_mesh, range_unfold.
    pose proof (mesh_rows_length n (Z.to_nat n) O) as H.
    cbn [Nat.add] in H. specialize (H (Z2Nat.id n Hn)).
    set (L := List.length _) in *. nia. }
  split; [exact Hchain|]. split; [exact Hmesh|]. split.
  - rewrite create_spatial_chain_eq, length_app, !length_map.
    unfold range. rewrite !range_from_length. lia.
  - rewrite create_nonspatial_mesh_eq, length_app, length_map.
    rewrite cnots_nonspatial_mesh in Hmesh.
    assert (Hlen : List.length
                     (flat_map
                        (fun i => map (CNot i) (range_from (i + 1) n))
                        (range n))
                   = List.length
                       (flat_map
                          (fun i => map (pair i) (range_from (i + 1) n))
                          (range n))).
    { clear. induction (range n) as [|k l IH]; cbn [flat_map];
        [reflexivity|].
      now rewrite !length_app, !length_map, IH. }
    rewrite Hlen. unfold range at 1. rewrite range_from_length.
    set (L := List.length _) in *. lia.
Qed.

(** X12, witness: four qubits. *)
Lemma circuit_gate_counts_4 :
  Z.of_nat (List.length (cnots (create_spatial_chain 4))) = Z.max 0 (4 - 1) /\
  2 * Z.of_nat (List.length (cnots (create_nonspatial_mesh 4)))
    = 4 * (4 - 1) /\
  Z.of_nat (List.length (create_spatial_chain 4)) = 4 + Z.max 0 (4 - 1) /\
  2 * Z.of_nat (List.length (create_nonspatial_mesh 4)) = 4 * (4 + 1).
Proof. apply (circuit_gate_counts 4). lia. Defined.

(** X13. Every instruction of the chain is an instruction of the mesh,
    and the two functions build the same circuit exactly when
    n_qubits <= 2: at two qubits the "spatial" and the "non-spatial"
    circuit are one circuit. *)
Theorem chain_is_part_of_mesh_and_equal_up_to_two_qubits (n : Z) :
  incl (create_spatial_chain n) (create_nonspatial_mesh n) /\
  (create_spatial_chain n = create_nonspatial_mesh n <-> n <= 2).
Proof.
  split.
  - rewrite create_spatial_chain_eq, create_nonspatial_mesh_eq.
    intros x Hx. apply in_app_or in Hx as [Hx|Hx]; apply in_or_app.
    + now left.
    + right. apply in_map_iff in Hx as [i [<- Hi]].
      apply range_from_In in Hi. apply in_flat_map. exists i.
      split; [apply range_from_In; lia|].
      apply in_map. apply range_from_In. lia.
  - split.
    + intros Heq. destruct (Z.le_gt_cases n 2) as [Hle|Hgt]; [assumption|].
      assert (Hn : 0 <= n) by lia.
      destruct (circuit_gate_counts n Hn) as [_ [_ [Hc Hm]]].
      rewrite Heq in Hc. nia.
    + intros Hle.
      destruct (Z.le_gt_cases n 0) as [H0|H0].
      * rewrite create_spatial_chain_eq, create_nonspatial_mesh_eq.
        unfold range. rewrite !range_from_empty by lia. reflexivity.
      * assert (Hn : n = 1 \/ n = 2) by lia.
        destruct Hn as [-> | ->]; reflexivity.
Qed.

(* ================================================================== *)
(** * A lower bound on the exact optimum *)

Lemma cut_size_filter (p : label * label -> bool)
    (es : list (label * label)) (side : label -> bool) :
  cut_size es side
  = cut_size (filter p es) side
    + cut_size (filter (fun e => negb (p e)) es) side.
Proof.
  induction es as [|[u v] es IH]; cbn [filter cut_size]; [reflexivity|].
  destruct (p (u, v)); cbn [negb cut_size]; rewrite IH; lia.
Qed.

Lemma filter_length_split {A : Type} (p : A -> bool) (l : list A) :
  List.length l
  = (List.length (filter p l)
     + List.length (filter (fun x => negb (p x)) l))%nat.
Proof.
  induction l as [|x l IH]; cbn [filter List.length]; [reflexivity|].
  destruct (p x); cbn [negb List.length]; lia.
Qed.

(** Edges with exactly one endpoint [w]: moving [w] to the other side
    cuts exactly the edges that were not cut. *)
Lemma cut_size_at_one_vertex (w : label) (es : list (label * label))
    (side : label -> bool) :
  (forall u v, In (u, v) es ->
     u <> v /\ (label_eqb u w = true \/ label_eqb v w = true)) ->
  cut_size es (fun l => if label_eqb l w then true else side l)
  + cut_size es (fun l => if label_eqb l w then false else side l)
  = Z.of_nat (List.length es).
Proof.
  induction es as [|[u v] es IH]; intros Hes; [reflexivity|].
  cbn [cut_size List.length]. rewrite Nat2Z.inj_succ.
  destruct (Hes u v (or_introl eq_refl)) as [Hne Hw].
  assert (IH' := IH (fun u' v' Hin => Hes u' v' (or_intror Hin))).
  assert (Hone : label_eqb u w = true /\ label_eqb v w = false \/
                 label_eqb u w = false /\ label_eqb v w = true).
  { destruct (label_eqb u w) eqn:Eu, (label_eqb v w) eqn:Ev; auto.
    - apply label_eqb_eq in Eu. apply label_eqb_eq in Ev. congruence.
    - destruct Hw; discriminate. }
  destruct Hone as [[-> ->] | [-> ->]]; destruct (side u), (side v);
    cbn [Bool.eqb]; lia.
Qed.

(** Every loop-free edge list has an assignment that cuts at least half
    of its edges. *)
Lemma half_of_the_edges_can_be_cut (vs : list label) :
  forall es : list (label * label),
    (forall u v, In (u, v) es -> u <> v /\ In u vs /\ In v vs) ->
    exists side, Z.of_nat (List.length es) <= 2 * cut_size es side.
Proof.
  induction vs as [|w vs IH]; intros es Hes.
  - destruct es as [|[u v] es].
    + exists (fun _ => false). cbn. lia.
    + destruct (Hes u v (or_introl eq_refl)) as [_ [[] _]].
  - set (at_w := fun e : label * label =>
                   label_eqb (fst e) w || label_eqb (snd e) w).
    destruct (IH (filter (fun e => negb (at_w e)) es)) as [side Hside].
    { intros u v Hin. apply filter_In in Hin as [Hin Hnot].
      destruct (Hes u v Hin) as [Hne [Hu Hv]].
      unfold at_w in Hnot. cbn [fst snd] in Hnot.
      apply negb_true_iff, orb_false_iff in Hnot as [Hu' Hv'].
      split; [assumption|]. split.
      - destruct Hu as [<-|Hu]; [now rewrite label_eqb_refl in Hu'|].
        assumption.
      - destruct Hv as [<-|Hv]; [now rewrite label_eqb_refl in Hv'|].
        assumption. }
    pose proof (cut_size_at_one_vertex w (filter at_w es) side) as Hone.
    assert (Hinc : forall u v, In (u, v) (filter at_w es) ->
              u <> v /\ (label_eqb u w = true \/ label_eqb v w = true)).
    { intros u v Hin. apply filter_In in Hin as [Hin Hat].
      split; [apply (Hes u v Hin)|].
      unfold at_w in Hat. cbn [fst snd] in Hat.
      now apply orb_true_iff in Hat. }
    specialize (Hone Hinc).
    assert (Hrest : forall b,
              cut_size (filter (fun e => negb (at_w e)) es)
                (fun l => if label_eqb l w then b else side l)
              = cut_size (filter (fun e => negb (at_w e)) es) side).
    { intros b. apply cut_size_ext. intros u v Hin.
      apply filter_In in Hin as [_ Hnot].
      unfold at_w in Hnot. cbn [fst snd] in Hnot.
      apply negb_true_iff, orb_false_iff in Hnot as [-> ->]. now split. }
    pose proof (filter_length_split at_w es) as Hlen.
    destruct (Z.le_gt_cases
                (cut_size (filter at_w es)
                   (fun l => if label_eqb l w then false else side l))
                (cut_size (filter at_w es)
                   (fun l => if label_eqb l w then true else side l))).
    + exists (fun l => if label_eqb l w then true else side l).
      rewrite (cut_size_filter at_w), (Hrest true). lia.
    + exists (fun l => if label_eqb l w then false else side l).
      rewrite (cut_size_filter at_w), (Hrest false). lia.
Qed.

Section LowerBound.

Variable quick_threshold : nat.
Variable max_exact_nodes : nat.
Variable compute_tabu_approximation : Graph -> Z.

(** X14. On a graph with nodes 0 .. n-1, without self-loops and within
    the cutoff, the exact optimum is at least half the number of edges
    (and at most their number). *)
Theorem exact_optimum_is_at_least_half_the_edges (g : Graph) :
  wf_graph g = true ->
  labels_in_range g = true ->
  (number_of_nodes g <= max_exact_nodes)%nat ->
  (forall u v, In (u, v) (edges g) -> u <> v) ->
  exists k,
    fst (compute_exact_max_cut quick_threshold max_exact_nodes
           compute_tabu_approximation g false) = inr k /\
    Z.of_nat (List.length (edges g)) <= 2 * k /\
    k <= Z.of_nat (List.length (edges g)).
Proof.
  intros Hwf Hrange Hn Hloops.
  destruct (exact_max_cut_returns_max_cut quick_threshold max_exact_nodes
              compute_tabu_approximation g Hwf Hrange Hn)
    as [k [Hk [[s Hs] Hub]]].
  exists k. split; [exact Hk|].
  destruct (half_of_the_edges_can_be_cut (nodes g) (edges g))
    as [side Hside].
  { intros u v Hin. split; [now apply Hloops|].
    unfold wf_graph in Hwf. rewrite forallb_forall in Hwf.
    specialize (Hwf (u, v) Hin). cbn [fst snd] in Hwf.
    apply andb_true_iff in Hwf as [Hu Hv].
    split; now apply mem_label_In. }
  specialize (Hub side). pose proof (cut_size_bounds (edges g) s). lia.
Qed.

End LowerBound.

(** X14, witness: K4 (6 edges, optimum 4). *)
Lemma exact_optimum_is_at_least_half_the_edges_K4 :
  exists k,
    fst (compute_exact_max_cut 12 24 no_tabu K4 false) = inr k /\
    Z.of_nat (List.length (edges K4)) <= 2 * k /\
    k <= Z.of_nat (List.length (edges K4)).
Proof.
  apply (exact_optimum_is_at_least_half_the_edges 12 24 no_tabu K4).
  - reflexivity.
  - reflexivity.
  - vm_compute. lia.
  - intros u v Hin. cbn in Hin.
    repeat (destruct Hin as [Hin|Hin];
            [injection Hin as <- <-; discriminate|]).
    destruct Hin.
Defined.

(* ================================================================== *)
(** * Properties of the syndrome detection *)

(** X15. On the codeword [b b b] with any pattern of X errors, the four
    CNOT gates leave the data qubits as they are and write the parities
    q0+q1 and q1+q2 to the syndrome qubits 3 and 4, whatever [b] is; the
    table then names the flipped qubit for every single error and
    [no_error] for none, and it reads two errors as one error on the
    third qubit and three errors as no error. *)
Theorem syndrome_circuit_and_table_agree (b e0 e1 e2 : bool) :
  run_on_basis (create_syndrome_detection_circuit [])
    (code_state_with_errors b e0 e1 e2)
  = Some [xorb b e0; xorb b e1; xorb b e2; xorb e0 e1; xorb e1 e2] /\
  syndrome_getitem syndrome_table
    (Z.b2z (xorb e0 e1), Z.b2z (xorb e1 e2))
  = inr (match e0, e1, e2 with
         | false, false, false | true, true, true => "no_error"
         | true, false, false | false, true, true => "error_q0"
         | false, true, false | true, false, true => "error_q1"
         | false, false, true | true, true, false => "error_q2"
         end).
Proof. destruct b, e0, e1, e2; split; reflexivity. Qed.

(* ================================================================== *)
(** * Properties of the overhead analysis *)

Lemma dict_getitem_raises (table : list (string * Z)) (key : string)
    (e : exn) :
  dict_getitem table key = inl e -> exc_class e = "KeyError".
Proof.
  induction table as [|[k v] table IH]; cbn [dict_getitem].
  - intros H. now injection H as <-.
  - destruct (String.eqb k key); [discriminate | exact IH].
Qed.

Lemma overhead_loop_raises items logical acc e :
  overhead_loop items logical acc = inl e -> exc_class e = "KeyError".
Proof.
  revert acc. induction items as [|[key p] items IH]; intros acc;
    cbn [overhead_loop]; [discriminate|].
  destruct (0 <? p); [|apply IH].
  destruct (dict_getitem logical key) as [e'|l] eqn:Hl; cbn [bind].
  - intros H. injection H as <-. eapply dict_getitem_raises; eassumption.
  - apply IH.
Qed.

Lemma overhead_loop_returns items logical acc :
  (forall key p, In (key, p) items -> 0 < p ->
     exists l, dict_getitem logical key = inr l) ->
  exists out,
    overhead_loop items logical acc = inr out /\
    map fst out
    = (map fst acc
       ++ map (fun kv => (fst kv ++ "_overhead")%string)
            (filter (fun kv => 0 <? snd kv) items))%list.
Proof.
  revert acc. induction items as [|[key p] items IH]; intros acc Hkeys;
    cbn [overhead_loop filter map snd fst].
  - exists acc. rewrite app_nil_r. now split.
  - destruct (0 <? p) eqn:Hp.
    + apply Z.ltb_lt in Hp.
      destruct (Hkeys key p (or_introl eq_refl) Hp) as [l Hl].
      rewrite Hl. cbn [bind].
      destruct (IH (List.app acc
                      [((key ++ "_overhead")%string,
                        (inject_Z l / inject_Z p)%Q)]))
        as [out [Hout Hfst]].
      { intros k' p' Hin. apply Hkeys. now right. }
      exists out. split; [exact Hout|].
      rewrite Hfst, map_app. cbn [map fst]. now rewrite <- app_assoc.
    + destruct (IH acc) as [out [Hout Hfst]].
      { intros k' p' Hin. apply Hkeys. now right. }
      exists out. now split.
Qed.

(** X16. The overhead loop never divides by zero: a resource whose
    physical count is not positive is skipped, without looking at the
    logical count, so the only exception it can raise is the [KeyError]
    of a logical dictionary that lacks a key; when the logical
    dictionary has every key of positive physical count, the result has
    exactly those keys, suffixed [_overhead], in their order. *)
Theorem overhead_loop_skips_zero_counts
    (physical_resources logical_resources : list (string * Z)) :
  (forall e,
     overhead_analysis_of physical_resources logical_resources = inl e ->
     exc_class e = "KeyError") /\
  ((forall key p, In (key, p) physical_resources -> 0 < p ->
      exists l, dict_getitem logical_resources key = inr l) ->
   exists out,
     overhead_analysis_of physical_resources logical_resources = inr out /\
     map fst out
     = map (fun kv => (fst kv ++ "_overhead")%string)
         (filter (fun kv => 0 <? snd kv) physical_resources)).
Proof.
  split.
  - intros e. apply overhead_loop_raises.
  - intros Hkeys.
    destruct (overhead_loop_returns physical_resources logical_resources
                [] Hkeys) as [out [Hout Hfst]].
    exists out. split; [exact Hout | exact Hfst].
Qed.

(* ================================================================== *)
(** * When the exact search returns a value *)

Lemma tuple_getitem_fits (a : list Z) (u : label) :
  (exists x, tuple_getitem a u = inr x)
  <-> index_fits (List.length a) u = true.
Proof.
  destruct u as [i|s]; cbn [tuple_getitem index_fits].
  - destruct (i <? 0) eqn:Hneg;
      [apply Z.ltb_lt in Hneg | apply Z.ltb_ge in Hneg].
    + destruct ((0 <=? i + Z.of_nat (List.length a))
                && (i + Z.of_nat (List.length a)
                    <? Z.of_nat (List.length a))) eqn:E.
      * apply andb_true_iff in E as [E1 E2].
        apply Z.leb_le in E1. split; [intros _ | intros _; eexists;
                                                  reflexivity].
        apply andb_true_iff. split; [apply Z.leb_le | apply Z.ltb_lt]; lia.
      * split; [intros [x Hx]; discriminate|].
        intros H. apply andb_true_iff in H as [H1 H2].
        apply Z.leb_le in H1. apply andb_false_iff in E as [E|E];
          [apply Z.leb_gt in E | apply Z.ltb_ge in E]; lia.
    + destruct ((0 <=? i) && (i <? Z.of_nat (List.length a))) eqn:E.
      * apply andb_true_iff in E as [E1 E2]. apply Z.ltb_lt in E2.
        split; [intros _ | intros _; eexists; reflexivity].
        apply andb_true_iff. split; [apply Z.leb_le | apply Z.ltb_lt]; lia.
      * split; [intros [x Hx]; discriminate|].
        intros H. apply andb_true_iff in H as [H1 H2].
        apply Z.ltb_lt in H2. apply andb_false_iff in E as [E|E];
          [apply Z.leb_gt in E | apply Z.ltb_ge in E]; lia.
  - split; [intros [x Hx]; discriminate | discriminate].
Qed.

Lemma count_cut_edges_fits (es : list (label * label)) (a : list Z) :
  (exists c, count_cut_edges es a = inr c)
  <-> forall u v, In (u, v) es ->
        index_fits (List.length a) u = true /\
        index_fits (List.length a) v = true.
Proof.
  induction es as [|[u v] es IH]; cbn [count_cut_edges].
  - split; [intros _ u v [] | intros _; now exists 0].
  - split.
    + intros [c Hc] u' v' Hin.
      destruct (tuple_getitem a u) as [e|au] eqn:Hu; [discriminate|].
      destruct (tuple_getitem a v) as [e|av] eqn:Hv; [discriminate|].
      cbn [bind] in Hc.
      destruct (count_cut_edges es a) as [e|rest] eqn:Hrest;
        [discriminate|].
      destruct Hin as [Heq|Hin].
      * injection Heq as <- <-. split; apply tuple_getitem_fits;
          eexists; eassumption.
      * apply (proj1 IH); [now exists rest | exact Hin].
    + intros Hall.
      destruct (Hall u v (or_introl eq_refl)) as [Hu Hv].
      apply tuple_getitem_fits in Hu as [au ->].
      apply tuple_getitem_fits in Hv as [av ->].
      destruct (proj2 IH) as [rest ->].
      { intros u' v' Hin. apply Hall. now right. }
      cbn [bind ret]. eexists. reflexivity.
Qed.

Lemma repeat_In_product (n : nat) : In (repeat 0 n) (product [0; 1] n).
Proof.
  apply product_In. split; [apply repeat_length|].
  apply Forall_forall. intros x Hx. apply repeat_spec in Hx. subst.
  now left.
Qed.

Section Totality.

Variable quick_threshold : nat.
Variable max_exact_nodes : nat.
Variable compute_tabu_approximation : Graph -> Z.

(** X17. Within the cutoff, the exact search returns a value exactly
    when every endpoint of every edge is an integer from -n to n-1, n
    being the number of nodes: these are the labels that index a tuple
    of n values, the negative ones from its end. Any other label makes
    the first tuple raise. *)
Theorem exact_search_returns_iff_indices_fit (g : Graph) :
  (number_of_nodes g <= max_exact_nodes)%nat ->
  ((exists k,
      fst (compute_exact_max_cut quick_threshold max_exact_nodes
             compute_tabu_approximation g false) = inr k)
   <-> (forall u v, In (u, v) (edges g) ->
          index_fits (number_of_nodes g) u = true /\
          index_fits (number_of_nodes g) v = true)) /\
  ((forall k,
      fst (compute_exact_max_cut quick_threshold max_exact_nodes
             compute_tabu_approximation g false) <> inr k) ->
   snd (compute_exact_max_cut quick_threshold max_exact_nodes
          compute_tabu_approximation g false) = 1%nat).
Proof.
  intros Hn. rewrite (exact_max_cut_unfold _ _ _ g Hn).
  assert (Hiff : forall a, In a (product [0; 1] (number_of_nodes g)) ->
            ((exists c, count_cut_edges (edges g) a = inr c)
             <-> forall u v, In (u, v) (edges g) ->
                   index_fits (number_of_nodes g) u = true /\
                   index_fits (number_of_nodes g) v = true)).
  { intros a Ha. apply product_In in Ha as [Hlen _].
    rewrite <- Hlen. apply count_cut_edges_fits. }
  split; [split|].
  - intros [k Hk].
    destruct (enumerate_loop (edges g) (product [0; 1] (number_of_nodes g))
                O 0) as [r j] eqn:Hrun.
    cbn [fst] in Hk. subst r.
    apply enumerate_loop_returns in Hrun as [_ Hall].
    apply (proj1 (Hiff _ (repeat_In_product (number_of_nodes g)))).
    destruct (Hall _ (repeat_In_product (number_of_nodes g)))
      as [c [Hc _]].
    now exists c.
  - intros Hfit.
    destruct (enumerate_loop_total (edges g)
                (product [0; 1] (number_of_nodes g)) O 0)
      as [k [Hrun _]].
    { intros a Ha. now apply (proj2 (Hiff a Ha)). }
    exists k. now rewrite Hrun.
  - intros Hno.
    destruct (product [0; 1] (number_of_nodes g)) as [|a rest] eqn:Hp.
    { exfalso. pose proof (repeat_In_product (number_of_nodes g)) as Hin.
      rewrite Hp in Hin. destruct Hin. }
    cbn [enumerate_loop].
    destruct (count_cut_edges (edges g) a) as [e|c] eqn:Hc; [reflexivity|].
    exfalso.
    destruct (enumerate_loop_total (edges g) (a :: rest) O 0)
      as [k [Hrun _]].
    { intros a' Ha'. apply (proj2 (Hiff a' Ha')).
      apply (proj1 (Hiff a (or_introl eq_refl))). now exists c. }
    apply (Hno k). now rewrite Hrun.
Qed.

End Totality.

(** X17, witness: the nodes 0 and -1 joined by an edge, under the
    thresholds of v2.1. *)
Lemma exact_search_returns_iff_indices_fit_0_minus_1 :
  ((exists k,
      fst (compute_exact_max_cut 12 24 no_tabu edge_0_minus_1 false)
        = inr k)
   <-> (forall u v, In (u, v) (edges edge_0_minus_1) ->
          index_fits (number_of_nodes edge_0_minus_1) u = true /\
          index_fits (number_of_nodes edge_0_minus_1) v = true)) /\
  ((forall k,
      fst (compute_exact_max_cut 12 24 no_tabu edge_0_minus_1 false)
        <> inr k) ->
   snd (compute_exact_max_cut 12 24 no_tabu edge_0_minus_1 false)
     = 1%nat).
Proof.
  apply (exact_search_returns_iff_indices_fit 12 24 no_tabu edge_0_minus_1).
  vm_compute. lia.
Defined.
